(** * Bose Beamline Scatter Analysis: the numeric pipeline of [src/utils/physics.ts]
      and the per-sample projection of the application component.

    The TypeScript code computes on JavaScript numbers.  They are embedded
    here as exact reals extended with the three non-finite values of
    IEEE-754 ([Infinity], [-Infinity], [NaN]): every operation follows the
    JavaScript semantics on those values (division by zero, [0/0],
    [sqrt] and [log] of a negative number, comparisons with [NaN]).
    Rounding and overflow of binary64 are outside the model, and the two
    signed zeros are identified (a zero denominator is read as [+0]). *)

From Stdlib Require Import Reals Lra Lia List ZArith Bool Sorted.
From Stdlib Require Import Strings.Byte Strings.String.
From stdpp Require Import list gmap strings.
Import ListNotations.

Open Scope R_scope.

(** ** JavaScript numbers *)

Module JS.

Inductive number : Type :=
| Fin (r : R)
| PInf
| NInf
| NaN.

Definition Rltb (a b : R) : bool := if Rlt_dec a b then true else false.
Definition Rleb (a b : R) : bool := if Rle_dec a b then true else false.
Definition Reqb (a b : R) : bool := if Req_dec_T a b then true else false.

Definition neg (a : number) : number :=
  match a with
  | Fin r => Fin (- r)
  | PInf => NInf
  | NInf => PInf
  | NaN => NaN
  end.

Definition add (a b : number) : number :=
  match a, b with
  | Fin x, Fin y => Fin (x + y)
  | NaN, _ | _, NaN => NaN
  | PInf, NInf | NInf, PInf => NaN
  | PInf, _ | _, PInf => PInf
  | NInf, _ | _, NInf => NInf
  end.

Definition sub (a b : number) : number := add a (neg b).

(** An infinity of the given sign ([true] for [+]), and its product with a
    finite factor [r] ([Infinity * 0] is [NaN]). *)
Definition signed_inf (positive : bool) : number :=
  if positive then PInf else NInf.

Definition inf_times (positive : bool) (r : R) : number :=
  if Rltb 0 r then signed_inf positive
  else if Rltb r 0 then signed_inf (negb positive)
  else NaN.

Definition mul (a b : number) : number :=
  match a, b with
  | Fin x, Fin y => Fin (x * y)
  | NaN, _ | _, NaN => NaN
  | PInf, Fin r | Fin r, PInf => inf_times true r
  | NInf, Fin r | Fin r, NInf => inf_times false r
  | PInf, PInf | NInf, NInf => PInf
  | PInf, NInf | NInf, PInf => NInf
  end.

Definition div (a b : number) : number :=
  match a, b with
  | Fin x, Fin y =>
      if Reqb y 0 then
        (if Rltb 0 x then PInf else if Rltb x 0 then NInf else NaN)
      else Fin (x / y)
  | NaN, _ | _, NaN => NaN
  | Fin _, PInf | Fin _, NInf => Fin 0
  | PInf, Fin r => signed_inf (negb (Rltb r 0))
  | NInf, Fin r => signed_inf (Rltb r 0)
  | _, _ => NaN
  end.

(** [Math.sqrt], [Math.log], [Math.floor], [Math.ceil]. *)
Definition sqrt (a : number) : number :=
  match a with
  | Fin r => if Rltb r 0 then NaN else Fin (R_sqrt.sqrt r)
  | PInf => PInf
  | NInf | NaN => NaN
  end.

Definition log (a : number) : number :=
  match a with
  | Fin r => if Rltb r 0 then NaN else if Reqb r 0 then NInf else Fin (ln r)
  | PInf => PInf
  | NInf | NaN => NaN
  end.

Definition Rfloor (r : R) : Z := Int_part r.
Definition Rceil (r : R) : Z := (- Rfloor (- r))%Z.

Definition floor (a : number) : number :=
  match a with Fin r => Fin (IZR (Rfloor r)) | _ => a end.

Definition ceil (a : number) : number :=
  match a with Fin r => Fin (IZR (Rceil r)) | _ => a end.

(** The relational operators; every comparison with [NaN] is [false]. *)
Definition lt (a b : number) : bool :=
  match a, b with
  | Fin x, Fin y => Rltb x y
  | NaN, _ | _, NaN => false
  | NInf, Fin _ | NInf, PInf | Fin _, PInf => true
  | _, _ => false
  end.

Definition le (a b : number) : bool :=
  match a, b with
  | Fin x, Fin y => Rleb x y
  | NaN, _ | _, NaN => false
  | NInf, _ | _, PInf => true
  | _, _ => false
  end.

Definition gt (a b : number) : bool := lt b a.
Definition ge (a b : number) : bool := le b a.

(** Strict equality [===] on numbers. *)
Definition strict_eq (a b : number) : bool :=
  match a, b with
  | Fin x, Fin y => Reqb x y
  | PInf, PInf | NInf, NInf => true
  | _, _ => false
  end.

(** [v || 0] on a [number | null]: [null], [0] and [NaN] are falsy. *)
Definition or_zero (v : option number) : number :=
  match v with
  | None => Fin 0
  | Some NaN => Fin 0
  | Some x => x
  end.

Definition of_nat (n : nat) : number := Fin (INR n).

End JS.

Import JS.

(** [Math.exp], [Math.abs], [Math.max] and the [SameValueZero] comparison
    that [Set] uses for its elements. *)
Module JSMath.

Definition exp (a : number) : number :=
  match a with
  | Fin r => Fin (Rtrigo_def.exp r)
  | PInf => PInf
  | NInf => Fin 0
  | NaN => NaN
  end.

Definition abs (a : number) : number :=
  match a with
  | Fin r => Fin (Rabs r)
  | PInf | NInf => PInf
  | NaN => NaN
  end.

(** [Math.max(a, b)]: [NaN] as soon as one argument is [NaN]. *)
Definition max2 (a b : number) : number :=
  match a, b with
  | NaN, _ | _, NaN => NaN
  | _, _ => if lt a b then b else a
  end.

(** [Math.max(...xs)]: [-Infinity] when there is no argument. *)
Definition max_of (xs : list number) : number := fold_left max2 xs NInf.

Definition same_value_zero (a b : number) : bool :=
  match a, b with
  | NaN, NaN => true
  | _, _ => strict_eq a b
  end.

End JSMath.

(** ** [src/types.ts] *)

Record Point : Type := mkPoint {
  pt_x : number;   (* x *)
  pt_y : number    (* y *)
}.

Record RadialDataPoint : Type := mkRadial {
  radius : number;
  intensity : number;
  fit : option number
}.

Record FilmSample : Type := mkFilm {
  id : nat;
  distanceL : number;
  airImageSrc : option string;
  airSigma : option number;
  materialImageSrc : option string;
  materialSigma : option number
}.

Record AnalysisSummary : Type := mkSummary {
  sampleId : nat;
  distance : number;
  sigmaAir : number;
  sigmaMaterial : number;
  sigmaCorrected : number;
  theta : number;
  theoreticalSigma : number
}.

(** The DOM [ImageData]: [data] is a [Uint8ClampedArray] holding four
    channel bytes (R, G, B, A) per pixel, row by row. *)
Record ImageData : Type := mkImage {
  width : nat;
  height : nat;
  data : list byte
}.

Record HighlandParams : Type := mkHighland {
  thickness : number;
  density : number;
  radLength : number;
  momentum : number;
  beta : number
}.

Record SavedRun : Type := mkRun {
  run_id : string;             (* id *)
  materialName : string;
  timestamp : number;
  run_results : list AnalysisSummary;   (* results *)
  run_thetaRms : number;       (* thetaRms *)
  highlandParams : HighlandParams;
  theoreticalTheta : number
}.

(** ** [src/utils/physics.ts] *)

Module Physics.

(** [data[i]] used in an arithmetic expression: an index beyond the array
    reads [undefined], which [+] turns into [NaN]. *)
Definition channel (d : list byte) (i : nat) : number :=
  match d !! i with
  | Some b => Fin (IZR (Z.of_N (Byte.to_N b)))
  | None => NaN
  end.

(** The shared prologue of both pixel loops:
    [i = (y * width + x) * 4], [brightness = (data[i] + data[i+1] + data[i+2]) / 3],
    [intensity = 255 - brightness]. *)
Definition brightness (img : ImageData) (x y : nat) : number :=
  let i := ((y * width img + x) * 4)%nat in
  div (add (add (channel (data img) i) (channel (data img) (i + 1)))
           (channel (data img) (i + 2)))
      (Fin 3).

Definition pixel_intensity (img : ImageData) (x y : nat) : number :=
  sub (Fin 255) (brightness img x y).

(** *** calculateCentroid *)

Record CentroidAcc : Type := mkAcc {
  totalMass : number;
  sumX : number;
  sumY : number
}.

Definition centroid_pixel (img : ImageData) (y : nat) (a : CentroidAcc) (x : nat)
  : CentroidAcc :=
  let intensity := pixel_intensity img x y in
  if gt intensity (Fin 20) then
    {| totalMass := add (totalMass a) intensity;
       sumX := add (sumX a) (mul (of_nat x) intensity);
       sumY := add (sumY a) (mul (of_nat y) intensity) |}
  else a.

Definition centroid_row (img : ImageData) (a : CentroidAcc) (y : nat) : CentroidAcc :=
  fold_left (centroid_pixel img y) (seq 0 (width img)) a.

Definition centroid_scan (img : ImageData) : CentroidAcc :=
  fold_left (centroid_row img) (seq 0 (height img))
            {| totalMass := Fin 0; sumX := Fin 0; sumY := Fin 0 |}.

Definition calculateCentroid (imgData : ImageData) : Point :=
  let a := centroid_scan imgData in
  if strict_eq (totalMass a) (Fin 0) then
    {| pt_x := div (of_nat (width imgData)) (Fin 2);
       pt_y := div (of_nat (height imgData)) (Fin 2) |}
  else
    {| pt_x := div (sumX a) (totalMass a);
       pt_y := div (sumY a) (totalMass a) |}.

(** *** calculateRadialProfile *)

Record Bins : Type := mkBins {
  bins : list number;
  counts : list nat
}.

Definition maxRadius (img : ImageData) : number :=
  div (sqrt (add (mul (of_nat (width img)) (of_nat (width img)))
                 (mul (of_nat (height img)) (of_nat (height img)))))
      (Fin 2).

(** The length given to [new Array(...)]; it is always a non-negative
    integer here (a non-finite one would be a [RangeError]). *)
Definition array_length (a : number) : nat :=
  match a with
  | Fin r => Z.to_nat (Rfloor r)
  | _ => 0%nat
  end.

Definition bin_count (img : ImageData) : nat := array_length (ceil (maxRadius img)).

(** An integer-valued number used as an array index; a negative or
    non-finite key names no element. *)
Definition array_index (a : number) : option nat :=
  match a with
  | Fin r => if Rleb 0 r then Some (Z.to_nat (Rfloor r)) else None
  | _ => None
  end.

Definition pixel_radius (centroid : Point) (x y : nat) : number :=
  let dx := sub (of_nat x) (pt_x centroid) in
  let dy := sub (of_nat y) (pt_y centroid) in
  sqrt (add (mul dx dx) (mul dy dy)).

Definition profile_pixel (img : ImageData) (centroid : Point) (y : nat)
  (b : Bins) (x : nat) : Bins :=
  let intensity := pixel_intensity img x y in
  let r := pixel_radius centroid x y in
  let binIdx := floor r in
  if lt binIdx (of_nat (length (bins b))) then
    match array_index binIdx with
    | Some k => {| bins := alter (fun s => add s intensity) k (bins b);
                   counts := alter S k (counts b) |}
    | None => b
    end
  else b.

Definition profile_row (img : ImageData) (centroid : Point) (b : Bins) (y : nat) : Bins :=
  fold_left (profile_pixel img centroid y) (seq 0 (width img)) b.

Definition accumulate (img : ImageData) (centroid : Point) : Bins :=
  fold_left (profile_row img centroid) (seq 0 (height img))
            {| bins := replicate (bin_count img) (Fin 0);
               counts := replicate (bin_count img) 0%nat |}.

Definition emit_bin (pixelToMm : number) (b : Bins)
  (profile : list RadialDataPoint) (i : nat) : list RadialDataPoint :=
  match bins b !! i, counts b !! i with
  | Some s, Some c =>
      if (0 <? c)%nat then
        profile ++ [ {| radius := mul (of_nat i) pixelToMm;
                        intensity := div s (of_nat c);
                        fit := None |} ]
      else profile
  | _, _ => profile
  end.

Definition emit (pixelToMm : number) (b : Bins) : list RadialDataPoint :=
  fold_left (emit_bin pixelToMm b) (seq 0 (length (bins b))) [].

Definition calculateRadialProfile (imgData : ImageData) (centroid : Point)
  (pixelToMm : number) : list RadialDataPoint :=
  emit pixelToMm (accumulate imgData centroid).

(** *** fitGaussian *)

Definition peak (profile : list RadialDataPoint) : number :=
  fold_left (fun maxIntensity p =>
               if gt (intensity p) maxIntensity then intensity p else maxIntensity)
            profile (Fin 0).

Definition in_window (maxIntensity : number) (p : RadialDataPoint) : bool :=
  let thresholdHigh := mul maxIntensity (Fin 0.95) in
  let thresholdLow := mul maxIntensity (Fin 0.30) in
  lt (intensity p) thresholdHigh && gt (intensity p) thresholdLow
  && gt (radius p) (Fin 0).

Definition validPoints (profile : list RadialDataPoint) : list RadialDataPoint :=
  List.filter (in_window (peak profile)) profile.

Record Sums : Type := mkSums {
  sX : number;    (* sumX *)
  sY : number;    (* sumY *)
  sXY : number;   (* sumXY *)
  sXX : number    (* sumXX *)
}.

Definition regression_step (s : Sums) (p : RadialDataPoint) : Sums :=
  let x := mul (radius p) (radius p) in
  let y := log (intensity p) in
  {| sX := add (sX s) x;
     sY := add (sY s) y;
     sXY := add (sXY s) (mul x y);
     sXX := add (sXX s) (mul x x) |}.

Definition regression_sums (pts : list RadialDataPoint) : Sums :=
  fold_left regression_step pts
            {| sX := Fin 0; sY := Fin 0; sXY := Fin 0; sXX := Fin 0 |}.

Definition slope_of (pts : list RadialDataPoint) : number :=
  let s := regression_sums pts in
  let n := of_nat (length pts) in
  div (sub (mul n (sXY s)) (mul (sX s) (sY s)))
      (sub (mul n (sXX s)) (mul (sX s) (sX s))).

Definition fitGaussian (profile : list RadialDataPoint) : number :=
  let pts := validPoints profile in
  if (length pts <? 5)%nat then Fin 0
  else
    let slope := slope_of pts in
    if ge slope (Fin 0) then Fin 0
    else sqrt (div (Fin (-1)) (mul (Fin 2) slope)).

(** *** calculateHighlandTheta *)

Definition calculateHighlandTheta (thickness radLength momentum beta : number) : number :=
  if le radLength (Fin 0) || le momentum (Fin 0) || le beta (Fin 0)
     || le thickness (Fin 0)
  then Fin 0
  else
    let lx := div thickness radLength in
    let term1 := div (Fin 17.5) (mul beta momentum) in
    let term2 := sqrt lx in
    let term3 := add (Fin 1) (mul (Fin 0.038) (log lx)) in
    let theta := mul (mul term1 term2) term3 in
    if gt theta (Fin 0) then theta else Fin 0.

(** *** calculateFitCurve *)

Definition calculateFitCurve (profile : list RadialDataPoint) (sigma : number)
  : list RadialDataPoint :=
  let maxIntensity := JSMath.max_of (map intensity profile) in
  map (fun p =>
         {| radius := radius p;
            intensity := intensity p;
            fit := Some (mul maxIntensity
                             (JSMath.exp (div (neg (mul (radius p) (radius p)))
                                              (mul (mul (Fin 2) sigma) sigma)))) |})
      profile.

End Physics.

(** ** The application component: per-sample results and the aggregate *)

Module App.

Definition summary (theoreticalTheta : number) (f : FilmSample) : AnalysisSummary :=
  let sa := or_zero (airSigma f) in
  let sm := or_zero (materialSigma f) in
  let diffSq := sub (mul sm sm) (mul sa sa) in
  let sigmaCorrected := if gt diffSq (Fin 0) then sqrt diffSq else Fin 0 in
  {| sampleId := id f;
     distance := distanceL f;
     sigmaAir := sa;
     sigmaMaterial := sm;
     sigmaCorrected := sigmaCorrected;
     theta := if gt (distanceL f) (Fin 0) then div sigmaCorrected (distanceL f)
              else Fin 0;
     theoreticalSigma := mul theoreticalTheta (distanceL f) |}.

Definition results (films : list FilmSample) (theoreticalTheta : number)
  : list AnalysisSummary :=
  map (summary theoreticalTheta) films.

Definition thetaRms (results : list AnalysisSummary) : number :=
  let validThetas := List.filter (fun t => gt t (Fin 0)) (map theta results) in
  if (length validThetas =? 0)%nat then Fin 0
  else
    let sumSquares :=
      fold_left (fun sum theta => add sum (mul theta theta)) validThetas (Fin 0) in
    sqrt (div sumSquares (of_nat (length validThetas))).

(** The ten initial slots: ids 1..10, distances 100, 200, ..., 1000 mm. *)
Definition initial_film (i : nat) : FilmSample :=
  {| id := i + 1;
     distanceL := Fin (INR ((i + 1) * 100));
     airImageSrc := None; airSigma := None;
     materialImageSrc := None; materialSigma := None |}.

Definition INITIAL_FILMS : list FilmSample := map initial_film (seq 0 10).

Definition updateDistance (films : list FilmSample) (i : nat) (val : number)
  : list FilmSample :=
  map (fun f => if (id f =? i)%nat
                then {| id := id f; distanceL := val;
                        airImageSrc := airImageSrc f; airSigma := airSigma f;
                        materialImageSrc := materialImageSrc f;
                        materialSigma := materialSigma f |}
                else f) films.

(** The ['air' | 'material'] tag of the analysis callbacks. *)
Inductive Channel : Type := Air | Material.

Definition handleAnalysisComplete (films : list FilmSample) (i : nat) (type : Channel)
  (sigma : number) : list FilmSample :=
  map (fun f => if negb (id f =? i)%nat then f
                else match type with
                     | Air =>
                         {| id := id f; distanceL := distanceL f;
                            airImageSrc := airImageSrc f; airSigma := Some sigma;
                            materialImageSrc := materialImageSrc f;
                            materialSigma := materialSigma f |}
                     | Material =>
                         {| id := id f; distanceL := distanceL f;
                            airImageSrc := airImageSrc f; airSigma := airSigma f;
                            materialImageSrc := materialImageSrc f;
                            materialSigma := Some sigma |}
                     end) films.

Definition theoreticalTheta_of (hp : HighlandParams) : number :=
  Physics.calculateHighlandTheta (thickness hp) (radLength hp) (momentum hp) (beta hp).

End App.

(** ** The film analyzer component: the synchronous part of [analyze],
    after the image has been loaded *)

Module FilmAnalyzer.

Definition analyze (imgData : ImageData) (pixelToMm : number)
  : number * list RadialDataPoint :=
  let centroid := Physics.calculateCentroid imgData in
  let rawProfile := Physics.calculateRadialProfile imgData centroid pixelToMm in
  let calculatedSigma := Physics.fitGaussian rawProfile in
  let dataWithFit := Physics.calculateFitCurve rawProfile calculatedSigma in
  (calculatedSigma, dataWithFit).

End FilmAnalyzer.

(** ** The results table component *)

Module ResultsTable.

Definition matchPercentage (thetaRms theoreticalTheta : number) : number :=
  if gt theoreticalTheta (Fin 0) then
    JSMath.max2 (Fin 0)
      (sub (Fin 100)
           (mul (div (JSMath.abs (sub thetaRms theoreticalTheta)) theoreticalTheta)
                (Fin 100)))
  else Fin 0.

End ResultsTable.

(** ** The comparison view component *)

Module ComparisonView.

(** [selectedRunIds] is a [Set<string>] of which the component observes
    membership and size only. *)
Definition toggleRun (selectedRunIds : gset string) (i : string) : gset string :=
  if decide (i ∈ selectedRunIds) then selectedRunIds ∖ {[ i ]}
  else selectedRunIds ∪ {[ i ]}.

Definition maxSigma (run : SavedRun) : number :=
  JSMath.max_of (map sigmaCorrected (run_results run)).

(** [allDistances] is a [Set<number>]: insertion-ordered, an element is
    added only if no [SameValueZero]-equal one is present. *)
Definition set_add (s : list number) (d : number) : list number :=
  if existsb (JSMath.same_value_zero d) s then s else s ++ [d].

Definition allDistances (selectedRuns : list SavedRun) : list number :=
  fold_left (fun s run =>
               fold_left (fun s' r => set_add s' (distance r)) (run_results run) s)
            selectedRuns [].

(** [Array.prototype.sort] with the comparator [(a, b) => a - b].  The
    language fixes the outcome whenever the comparator is a consistent
    order (here: no [NaN] among the elements); the stable insertion sort
    below is that outcome. *)
Fixpoint sort_insert (x : number) (l : list number) : list number :=
  match l with
  | [] => [x]
  | y :: l' => if gt (sub y x) (Fin 0) then x :: y :: l' else y :: sort_insert x l'
  end.

Definition sort_ascending (l : list number) : list number :=
  fold_left (fun acc x => sort_insert x acc) l [].

(** A chart point is an object used as a map; the [gmap] holds its own
    properties.  [point[key] = v] with [v] a number writes an own property,
    except under the key ["__proto__"]: that name is an accessor of
    [Object.prototype], and its setter ignores a value that is neither an
    object nor [null], so nothing is stored. *)
Definition set_property (point : gmap string number) (key : string) (v : number)
  : gmap string number :=
  if decide (key = "__proto__"%string) then point else <[ key := v ]> point.

(** One point of the chart: the key ["distance"] and one key per selected
    run that has a result at exactly that distance. *)
Definition chart_point (selectedRuns : list SavedRun) (dist : number)
  : gmap string number :=
  fold_left (fun point run =>
               match List.find (fun r => strict_eq (distance r) dist) (run_results run) with
               | Some m => set_property point (run_id run) (sigmaCorrected m)
               | None => point
               end)
            selectedRuns {[ "distance"%string := dist ]}.

Definition chartData (savedRuns : list SavedRun) (selectedRunIds : gset string)
  : list (gmap string number) :=
  if decide (size selectedRunIds = 0%nat) then []
  else
    let selectedRuns :=
      List.filter (fun r => bool_decide (run_id r ∈ selectedRunIds)) savedRuns in
    let sortedDistances := sort_ascending (allDistances selectedRuns) in
    map (chart_point selectedRuns) sortedDistances.

End ComparisonView.

(** * Specification-side quantities *)

(** Finite sum of reals. *)
Definition Rsum (l : list R) : R := fold_right Rplus 0 l.

(** The Highland approximation
    [θ = (17.5/(β·p))·sqrt(x/X0)·(1 + 0.038·ln(x/X0))]. *)
Definition highland (x X0 p beta : R) : R :=
  (17.5 / (beta * p)) * R_sqrt.sqrt (x / X0) * (1 + 0.038 * ln (x / X0)).

(** [sqrt(mean(t²))] over the strictly positive entries of [ts], [0] when
    there is none. *)
Definition positive_thetas (ts : list R) : list R := List.filter (Rltb 0) ts.

Definition rms (ts : list R) : R :=
  match positive_thetas ts with
  | [] => 0
  | pos => R_sqrt.sqrt (Rsum (map (fun t => t * t) pos) / INR (length pos))
  end.

(** A film sample all of whose numeric fields are real numbers (or missing). *)
Definition real_film (i : nat) (d : R) (sa sm : option R) : FilmSample :=
  {| id := i; distanceL := Fin d;
     airImageSrc := None; airSigma := option_map Fin sa;
     materialImageSrc := None; materialSigma := option_map Fin sm |}.

Definition sigma_or_zero (s : option R) : R :=
  match s with Some r => r | None => 0 end.

(** The quadrature subtraction [sqrt(max(0, σm² − σa²))]. *)
Definition corrected (sa sm : R) : R := R_sqrt.sqrt (Rmax 0 (sm * sm - sa * sa)).

(** A sigma as the application holds it: the two sigma fields start out
    [null] and are written by [handleAnalysisComplete] only, with the value
    the analyzer hands over, which is a result of [fitGaussian]. *)
Definition fitted (s : option number) : Prop :=
  match s with
  | None => True
  | Some v => exists profile, v = Physics.fitGaussian profile
  end.

Definition fitted_film (f : FilmSample) : Prop :=
  fitted (airSigma f) /\ fitted (materialSigma f).

(** *** Sample grids *)

(** An [ImageData] as the DOM builds it: four bytes per pixel. *)
Definition wf_image (img : ImageData) : Prop :=
  length (data img) = (height img * width img * 4)%nat.

(** The pixel coordinates [(x, y)] in scan order (row by row). *)
Definition pixels (img : ImageData) : list (nat * nat) :=
  flat_map (fun y => map (fun x => (x, y)) (seq 0 (width img))) (seq 0 (height img)).

Definition channel_real (d : list byte) (i : nat) : R :=
  IZR (Z.of_N (Byte.to_N (nth i d x00))).

(** [I = 255 − (R + G + B)/3]. *)
Definition intensity_at (img : ImageData) (x y : nat) : R :=
  let i := ((y * width img + x) * 4)%nat in
  255 - (channel_real (data img) i + channel_real (data img) (i + 1)
         + channel_real (data img) (i + 2)) / 3.

(** The mass a sample contributes: its intensity when above the
    background threshold 20, nothing otherwise. *)
Definition mass_at (img : ImageData) (p : nat * nat) : R :=
  if Rltb 20 (intensity_at img (fst p) (snd p))
  then intensity_at img (fst p) (snd p) else 0.

Definition total_mass (img : ImageData) : R :=
  Rsum (map (mass_at img) (pixels img)).

Definition moment_x (img : ImageData) : R :=
  Rsum (map (fun p => INR (fst p) * mass_at img p) (pixels img)).

Definition moment_y (img : ImageData) : R :=
  Rsum (map (fun p => INR (snd p) * mass_at img p) (pixels img)).

(** A grid all of whose samples have intensity [c]. *)
Definition uniform_grid (img : ImageData) (c : R) : Prop :=
  forall x y, (x < width img)%nat -> (y < height img)%nat -> intensity_at img x y = c.

Definition real_pt (cx cy : R) : Point := {| pt_x := Fin cx; pt_y := Fin cy |}.

(** Sample grids: one black pixel; a row of four pixels of which only the
    first is dark; a row of two black pixels. *)
Definition black_pixel : ImageData :=
  {| width := 1; height := 1; data := [x00; x00; x00; xff] |}.

Definition dark_corner_row : ImageData :=
  {| width := 4; height := 1;
     data := [x00; x00; x00; xff;  xff; xff; xff; xff;
              xff; xff; xff; xff;  xff; xff; xff; xff] |}.

Definition black_pair : ImageData :=
  {| width := 2; height := 1; data := [x00; x00; x00; xff; x00; x00; x00; xff] |}.

Definition white_pair : ImageData :=
  {| width := 2; height := 1; data := [xff; xff; xff; xff; xff; xff; xff; xff] |}.

(** *** The radial profile, as the specification words it *)

(** Euclidean pixel distance of the sample [p] from the centroid [(cx, cy)]. *)
Definition radius_at (cx cy : R) (p : nat * nat) : R :=
  R_sqrt.sqrt ((INR (fst p) - cx) * (INR (fst p) - cx)
               + (INR (snd p) - cy) * (INR (snd p) - cy)).

(** The bin of a sample, [floor(r)]. *)
Definition bin_of (cx cy : R) (p : nat * nat) : nat :=
  Z.to_nat (Rfloor (radius_at cx cy p)).

(** The samples of bin [k], in scan order; their intensity sum and number. *)
Definition bin_members (img : ImageData) (cx cy : R) (k : nat) : list (nat * nat) :=
  List.filter (fun p => Nat.eqb (bin_of cx cy p) k) (pixels img).

Definition bin_sum (img : ImageData) (cx cy : R) (k : nat) : R :=
  Rsum (map (fun p => intensity_at img (fst p) (snd p)) (bin_members img cx cy k)).

Definition bin_size (img : ImageData) (cx cy : R) (k : nat) : nat :=
  length (bin_members img cx cy k).

(** [maxPossibleRadius = sqrt(width² + height²)/2] and the bin count
    [ceil(maxPossibleRadius)]. *)
Definition max_radius (img : ImageData) : R :=
  R_sqrt.sqrt (INR (width img) * INR (width img) + INR (height img) * INR (height img)) / 2.

Definition bin_total (img : ImageData) : nat := Z.to_nat (Rceil (max_radius img)).

(** One iteration of the profiler's inner loop, on the pixel [p], for a
    real centroid. *)
Definition scan_step (img : ImageData) (cx cy : R) (b : Physics.Bins) (p : nat * nat)
  : Physics.Bins :=
  Physics.profile_pixel img (real_pt cx cy) (snd p) b (fst p).

(** Every listed pixel reads three channel bytes, so its intensity is real. *)
Definition real_intensities (img : ImageData) (ps : list (nat * nat)) : Prop :=
  Forall (fun p => Physics.pixel_intensity img (fst p) (snd p)
                   = Fin (intensity_at img (fst p) (snd p))) ps.

(** One point per non-empty bin, in increasing bin order:
    [radius = binIndex × scale], [intensity = binSum / binCount]. *)
Definition profile_of_bins (img : ImageData) (cx cy s : R) : list (R * R) :=
  map (fun k => (INR k * s, bin_sum img cx cy k / INR (bin_size img cx cy k)))
      (List.filter (fun k => (0 <? bin_size img cx cy k)%nat) (seq 0 (bin_total img))).

(** *** The Gaussian fit, as the specification words it *)

(** A radial profile with real entries: pairs (radius, intensity). *)
Definition real_point (p : R * R) : RadialDataPoint :=
  {| radius := Fin (fst p); intensity := Fin (snd p); fit := None |}.

Definition real_profile (pts : list (R * R)) : list RadialDataPoint :=
  map real_point pts.

(** The maximum of a non-empty list of reals (0 for the empty list). *)
Definition Rmaximum (l : list R) : R :=
  match l with
  | [] => 0
  | x :: l' => fold_left Rmax l' x
  end.

(** The fit window: intensity strictly between 0.30 and 0.95 of the
    profile's maximum intensity, radius strictly positive. *)
Definition in_fit_window (maxI : R) (p : R * R) : bool :=
  Rltb (0.30 * maxI) (snd p) && Rltb (snd p) (0.95 * maxI) && Rltb 0 (fst p).

Definition fit_window (pts : list (R * R)) : list (R * R) :=
  List.filter (in_fit_window (Rmaximum (map snd pts))) pts.

(** Ordinary least squares over pairs [(X, Y)]:
    [m = (n·ΣXY − ΣX·ΣY) / (n·ΣXX − (ΣX)²)]. *)
Definition ols_num (l : list (R * R)) : R :=
  INR (length l) * Rsum (map (fun q => fst q * snd q) l)
  - Rsum (map fst l) * Rsum (map snd l).

Definition ols_den (l : list (R * R)) : R :=
  INR (length l) * Rsum (map (fun q => fst q * fst q) l)
  - Rsum (map fst l) * Rsum (map fst l).

Definition ols_slope (l : list (R * R)) : R := ols_num l / ols_den l.

(** The regression coordinates of a profile point: [X = r²], [Y = ln I]. *)
Definition linearized (p : R * R) : R * R := (fst p * fst p, ln (snd p)).

Definition window_slope (pts : list (R * R)) : R :=
  ols_slope (map linearized (fit_window pts)).



(** Sample profiles: a peak at the centre with a falling flank, a rising
    flank under a far peak, and a strictly rising ramp. *)
Definition falling_profile : list (R * R) :=
  [(0, 1); (1, 0.9); (1, 0.9); (1, 0.9); (2, 0.5); (2, 0.5)].



Definition short_profile : list (R * R) :=
  [(0, 1); (1, 0.9); (2, 0.5)].

(** A summary record carrying a given [theta] (sample data for the aggregate). *)
Definition summary_with_theta (t : number) : AnalysisSummary :=
  {| sampleId := 1; distance := Fin 100; sigmaAir := Fin 0; sigmaMaterial := Fin 0;
     sigmaCorrected := Fin 0; theta := t; theoreticalSigma := Fin 0 |}.

(** *** Further quantities used to state what the remaining code does *)



(** The Gaussian beam profile [I(r) = A·exp(-r²/(2σ²))]. *)
Definition gaussian (A sigma r : R) : R :=
  A * Rtrigo_def.exp (- (r * r) / (2 * sigma * sigma)).

(** Radii strictly increasing along the sequence. *)
Definition radii_increasing (pts : list (R * R)) : Prop :=
  StronglySorted (fun p q => fst p < fst q) pts.

(** An exact Gaussian of width 1 sampled at six radii. *)
Definition gaussian_samples : list (R * R) :=
  map (fun r => (r, gaussian 1 1 r)) [0; 0.5; 0.75; 1; 1.25; 1.4].

(** A film both of whose images have been analysed. *)
Definition analyzed_film : FilmSample :=
  {| id := 1; distanceL := Fin 100;
     airImageSrc := Some "air.png"%string;
     airSigma := Some (Physics.fitGaussian (real_profile falling_profile));
     materialImageSrc := Some "material.png"%string;
     materialSigma := Some (Physics.fitGaussian (real_profile gaussian_samples)) |}.

(** A number that is neither [NaN] nor negative: a real [>= 0] or [+Infinity]. *)
Definition nonneg_ext (a : number) : Prop := a = PInf \/ exists r, a = Fin r /\ 0 <= r.

(** A saved run of the initial films, before any analysis. *)
Definition sample_run : SavedRun :=
  {| run_id := "1"; materialName := "Al"; timestamp := Fin 1;
     run_results := App.results App.INITIAL_FILMS (Fin 0.03);
     run_thetaRms := Fin 0;
     highlandParams := {| thickness := Fin 1; density := Fin 1; radLength := Fin 36.08;
                          momentum := Fin 150; beta := Fin 0.5 |};
     theoreticalTheta := Fin 0.03 |}.

(** The results of the selected runs all have real distances. *)
Definition real_distances (runs : list SavedRun) : Prop :=
  Forall (fun run => Forall (fun s => exists d, distance s = Fin d) (run_results run)) runs.

(** * Proofs *)

(** ** Boolean comparisons on reals *)

Lemma Rltb_true a b : a < b -> Rltb a b = true.
Proof. intros H. unfold Rltb. destruct (Rlt_dec a b); [reflexivity | contradiction]. Qed.

Lemma Rltb_false a b : ~ a < b -> Rltb a b = false.
Proof. intros H. unfold Rltb. destruct (Rlt_dec a b); [contradiction | reflexivity]. Qed.

Lemma Rltb_spec a b : Rltb a b = true <-> a < b.
Proof.
  unfold Rltb. destruct (Rlt_dec a b); split; intros H;
    try assumption; try reflexivity; try discriminate H; contradiction.
Qed.

Lemma Rleb_true a b : a <= b -> Rleb a b = true.
Proof. intros H. unfold Rleb. destruct (Rle_dec a b); [reflexivity | contradiction]. Qed.

Lemma Rleb_false a b : ~ a <= b -> Rleb a b = false.
Proof. intros H. unfold Rleb. destruct (Rle_dec a b); [contradiction | reflexivity]. Qed.

Lemma Rleb_spec a b : Rleb a b = true <-> a <= b.
Proof.
  unfold Rleb. destruct (Rle_dec a b); split; intros H;
    try assumption; try reflexivity; try discriminate H; contradiction.
Qed.

Lemma Reqb_true a b : a = b -> Reqb a b = true.
Proof. intros H. unfold Reqb. destruct (Req_dec_T a b); [reflexivity | contradiction]. Qed.

Lemma Reqb_false a b : a <> b -> Reqb a b = false.
Proof. intros H. unfold Reqb. destruct (Req_dec_T a b); [contradiction | reflexivity]. Qed.

Lemma Reqb_spec a b : Reqb a b = true <-> a = b.
Proof.
  unfold Reqb. destruct (Req_dec_T a b); split; intros H;
    try assumption; try reflexivity; try discriminate H; contradiction.
Qed.

(** Decide every real comparison occurring in the goal from the context. *)
Ltac rcmp :=
  repeat match goal with
  | |- context [Rltb ?a ?b] =>
      first [ rewrite (Rltb_true a b) by lra | rewrite (Rltb_false a b) by lra ]
  | |- context [Rleb ?a ?b] =>
      first [ rewrite (Rleb_true a b) by lra | rewrite (Rleb_false a b) by lra ]
  | |- context [Reqb ?a ?b] =>
      first [ rewrite (Reqb_true a b) by lra | rewrite (Reqb_false a b) by lra ]
  end.

(** ** The operations on finite arguments *)

Lemma div_fin x y : y <> 0 -> div (Fin x) (Fin y) = Fin (x / y).
Proof. intros H. simpl. now rewrite Reqb_false. Qed.

Lemma sqrt_fin r : 0 <= r -> sqrt (Fin r) = Fin (R_sqrt.sqrt r).
Proof. intros H. simpl. now rewrite Rltb_false by lra. Qed.

Lemma log_fin r : 0 < r -> log (Fin r) = Fin (ln r).
Proof. intros H. simpl. rewrite Rltb_false by lra. now rewrite Reqb_false by lra. Qed.

Lemma gt_zero_cases a :
  gt a (Fin 0) = true -> a = PInf \/ exists r, a = Fin r /\ 0 < r.
Proof.
  destruct a as [r| | |]; simpl; intros H; try discriminate H.
  - right. exists r. split; [reflexivity | now apply Rltb_spec].
  - now left.
Qed.

Lemma gt_zero_not_negative a :
  gt a (Fin 0) = true -> a <> NaN /\ lt a (Fin 0) = false.
Proof.
  intros H. destruct (gt_zero_cases a H) as [-> | (r & -> & Hr)].
  - split; [discriminate | reflexivity].
  - split; [discriminate |]. simpl. apply Rltb_false. lra.
Qed.

(** ** calculateHighlandTheta *)

Lemma highland_guard t X0 p b :
  le t (Fin 0) = true \/ le X0 (Fin 0) = true \/ le p (Fin 0) = true
  \/ le b (Fin 0) = true ->
  Physics.calculateHighlandTheta t X0 p b = Fin 0.
Proof.
  intros H. unfold Physics.calculateHighlandTheta.
  destruct H as [H | [H | [H | H]]]; rewrite H;
    rewrite ?orb_true_r; reflexivity.
Qed.

Lemma highland_positive x X0 p b :
  0 < x -> 0 < X0 -> 0 < p -> 0 < b ->
  Physics.calculateHighlandTheta (Fin x) (Fin X0) (Fin p) (Fin b)
  = Fin (Rmax 0 (highland x X0 p b)).
Proof.
  intros Hx HX Hp Hb. unfold Physics.calculateHighlandTheta.
  assert (Hlx : 0 < x / X0) by (apply Rdiv_lt_0_compat; assumption).
  assert (Hbp : 0 < b * p) by (apply Rmult_lt_0_compat; assumption).
  cbn [le]. rcmp. cbn [orb].
  rewrite (div_fin x X0) by lra.
  rewrite sqrt_fin by lra. rewrite log_fin by assumption.
  cbn [mul add]. rewrite div_fin by lra. cbn [mul gt lt].
  fold (highland x X0 p b).
  destruct (Rlt_dec 0 (highland x X0 p b)) as [Hpos | Hneg].
  - rewrite Rltb_true by assumption. f_equal. symmetry. apply Rmax_right. lra.
  - rewrite Rltb_false by assumption. f_equal. symmetry. apply Rmax_left. lra.
Qed.

Lemma highland_never_negative t X0 p b :
  Physics.calculateHighlandTheta t X0 p b <> NaN
  /\ lt (Physics.calculateHighlandTheta t X0 p b) (Fin 0) = false.
Proof.
  unfold Physics.calculateHighlandTheta.
  destruct (le X0 (Fin 0) || le p (Fin 0) || le b (Fin 0) || le t (Fin 0)).
  - split; [discriminate | simpl; apply Rltb_false; lra].
  - match goal with |- context [gt ?th (Fin 0)] =>
      destruct (gt th (Fin 0)) eqn:Hgt; [exact (gt_zero_not_negative th Hgt) |]
    end.
    split; [discriminate | simpl; apply Rltb_false; lra].
Qed.

(** C3. [calculateHighlandTheta] returns 0 whenever one of the four
    parameters is [<= 0]; on strictly positive real parameters it returns
    the Highland value clamped at 0 from below,
    [max(0, (17.5/(β·p))·sqrt(x/X0)·(1 + 0.038·ln(x/X0)))]; and on every
    input whatsoever (non-finite ones and [NaN] included) the result is
    neither [NaN] nor negative. *)
Theorem C3_highland_theta :
  (forall t X0 p b : number,
      le t (Fin 0) = true \/ le X0 (Fin 0) = true \/ le p (Fin 0) = true
      \/ le b (Fin 0) = true ->
      Physics.calculateHighlandTheta t X0 p b = Fin 0)
  /\ (forall x X0 p b : R,
      ~ (x <= 0 \/ X0 <= 0 \/ p <= 0 \/ b <= 0) ->
      Physics.calculateHighlandTheta (Fin x) (Fin X0) (Fin p) (Fin b)
      = Fin (Rmax 0 (highland x X0 p b)))
  /\ (forall t X0 p b : number,
      Physics.calculateHighlandTheta t X0 p b <> NaN
      /\ lt (Physics.calculateHighlandTheta t X0 p b) (Fin 0) = false).
Proof.
  split; [exact highland_guard | split].
  - intros x X0 p b H. apply highland_positive; lra.
  - exact highland_never_negative.
Qed.

Lemma C3_highland_theta_witness :
  Physics.calculateHighlandTheta (Fin (-1)) (Fin 36.08) (Fin 150) (Fin 0.5) = Fin 0
  /\ Physics.calculateHighlandTheta (Fin 1) (Fin 36.08) (Fin 150) (Fin 0.5)
     = Fin (Rmax 0 (highland 1 36.08 150 0.5)).
Proof.
  split.
  - apply (proj1 C3_highland_theta). left. simpl. apply Rleb_true. lra.
  - apply (proj1 (proj2 C3_highland_theta)). lra.
Defined.

(** ** The per-sample summary *)

Lemma or_zero_real (s : option R) : or_zero (option_map Fin s) = Fin (sigma_or_zero s).
Proof. destruct s; reflexivity. Qed.

Lemma corrected_clamped sa sm : sm * sm - sa * sa <= 0 -> corrected sa sm = 0.
Proof.
  intros H. unfold corrected. rewrite Rmax_left by assumption. apply sqrt_0.
Qed.

Lemma summary_sigmaCorrected_real th i d sa sm :
  sigmaCorrected (App.summary th (real_film i d sa sm))
  = Fin (corrected (sigma_or_zero sa) (sigma_or_zero sm)).
Proof.
  unfold App.summary, real_film. cbn [sigmaCorrected airSigma materialSigma].
  rewrite !or_zero_real.
  set (a := sigma_or_zero sa). set (m := sigma_or_zero sm).
  cbn [mul sub add neg gt lt].
  replace (m * m + - (a * a)) with (m * m - a * a) by ring.
  destruct (Rlt_dec 0 (m * m - a * a)) as [Hpos | Hneg].
  - rewrite Rltb_true by assumption. rewrite sqrt_fin by lra.
    unfold corrected. now rewrite Rmax_right by lra.
  - rewrite Rltb_false by assumption. now rewrite corrected_clamped by lra.
Qed.

Lemma summary_sigmaCorrected_sound th f :
  sigmaCorrected (App.summary th f) <> NaN
  /\ ge (sigmaCorrected (App.summary th f)) (Fin 0) = true.
Proof.
  unfold App.summary. cbn [sigmaCorrected].
  match goal with |- context [gt ?d (Fin 0)] =>
    destruct (gt d (Fin 0)) eqn:Hgt;
      [destruct (gt_zero_cases d Hgt) as [-> | (r & -> & Hr)] |]
  end.
  - split; [discriminate | reflexivity].
  - rewrite sqrt_fin by lra. split; [discriminate |].
    simpl. apply Rleb_true. apply sqrt_pos.
  - split; [discriminate | simpl; apply Rleb_true; lra].
Qed.

Lemma summary_theta_real th i d sa sm :
  theta (App.summary th (real_film i d sa sm))
  = Fin (if Rlt_dec 0 d
         then corrected (sigma_or_zero sa) (sigma_or_zero sm) / d
         else 0).
Proof.
  pose proof (summary_sigmaCorrected_real th i d sa sm) as Hs.
  unfold App.summary in *. cbn [sigmaCorrected theta] in *.
  rewrite Hs. unfold real_film. cbn [distanceL gt lt].
  destruct (Rlt_dec 0 d) as [Hd | Hd].
  - rewrite Rltb_true by assumption. now rewrite div_fin by lra.
  - now rewrite Rltb_false by assumption.
Qed.

(** *** The sigmas the application stores *)

(** Whatever the profile holds, [fitGaussian] returns [NaN] or a real
    [>= 0]: its results are the literal 0 and a square root. *)
Lemma fitGaussian_range profile :
  Physics.fitGaussian profile = NaN
  \/ exists r, 0 <= r /\ Physics.fitGaussian profile = Fin r.
Proof.
  unfold Physics.fitGaussian.
  destruct (length (Physics.validPoints profile) <? 5)%nat;
    [right; exists 0; split; [lra | reflexivity] |].
  destruct (Physics.slope_of (Physics.validPoints profile)) as [m| | |];
    cbn [ge le mul].
  - destruct (Rle_dec 0 m) as [Hm | Hm].
    + rewrite Rleb_true by assumption. right. exists 0. split; [lra | reflexivity].
    + rewrite Rleb_false by assumption. rewrite div_fin by lra.
      assert (0 < -1 / (2 * m)).
      { replace (-1 / (2 * m)) with (/ (2 * - m)) by (field; lra).
        apply Rinv_0_lt_compat. lra. }
      rewrite sqrt_fin by lra. right. eexists. split; [apply sqrt_pos | reflexivity].
  - right. exists 0. split; [lra | reflexivity].
  - unfold inf_times. rcmp. cbn [signed_inf div sqrt]. rcmp.
    right. eexists. split; [apply sqrt_pos | reflexivity].
  - now left.
Qed.

Lemma or_zero_fitted s : fitted s -> exists a, 0 <= a /\ or_zero s = Fin a.
Proof.
  destruct s as [v|]; cbn [fitted].
  - intros [profile ->].
    destruct (fitGaussian_range profile) as [-> | (r & Hr & ->)].
    + exists 0. split; [lra | reflexivity].
    + exists r. split; [assumption | reflexivity].
  - intros _. exists 0. split; [lra | reflexivity].
Qed.

(** The initial films are of that kind, and the handlers keep them so. *)
Lemma initial_films_fitted : Forall fitted_film App.INITIAL_FILMS.
Proof.
  unfold App.INITIAL_FILMS. apply Forall_map, List.Forall_forall.
  intros i _. split; exact I.
Qed.

Lemma updateDistance_fitted films i val :
  Forall fitted_film films -> Forall fitted_film (App.updateDistance films i val).
Proof.
  intros H. unfold App.updateDistance. apply Forall_map.
  eapply List.Forall_impl; [| exact H]. intros f Hf. cbn beta.
  destruct (id f =? i)%nat; exact Hf.
Qed.

Lemma handleAnalysisComplete_fitted films i t img scale :
  Forall fitted_film films ->
  Forall fitted_film
         (App.handleAnalysisComplete films i t (fst (FilmAnalyzer.analyze img scale))).
Proof.
  intros H. unfold App.handleAnalysisComplete. apply Forall_map.
  eapply List.Forall_impl; [| exact H]. intros f [Ha Hm]. cbn beta.
  destruct (negb (id f =? i)%nat); [now split |].
  destruct t; (split; cbn [airSigma materialSigma]; [| try assumption]);
    try assumption; unfold FilmAnalyzer.analyze; cbn [fst fitted]; eauto.
Qed.

Lemma summary_sigmaCorrected_fin th f a m :
  or_zero (airSigma f) = Fin a -> or_zero (materialSigma f) = Fin m ->
  sigmaCorrected (App.summary th f) = Fin (corrected a m).
Proof.
  intros Ha Hm. unfold App.summary. cbn [sigmaCorrected]. rewrite Ha, Hm.
  cbn [mul sub add neg gt lt].
  replace (m * m + - (a * a)) with (m * m - a * a) by ring.
  destruct (Rlt_dec 0 (m * m - a * a)) as [Hpos | Hneg].
  - rewrite Rltb_true by assumption. rewrite sqrt_fin by lra.
    unfold corrected. now rewrite Rmax_right by lra.
  - rewrite Rltb_false by assumption. now rewrite corrected_clamped by lra.
Qed.

(** C2. For every film sample with real (or missing, read as 0) sigmas,
    [sigmaCorrected = sqrt(max(0, σm² − σa²))], which is 4 for [σa = 3],
    [σm = 5]; [theta = sigmaCorrected / distance] when [distance > 0] and 0
    otherwise; [theoreticalSigma = thetaHighland × distance].  For every
    film sample as the application holds it (each sigma missing or a
    result of [fitGaussian]) and every distance, the two sigmas of the
    summary are reals [>= 0], the same formula holds, [sigmaCorrected] is 0
    whenever [σm <= σa], and [theta] and [theoreticalSigma] are as above.
    For every film sample at all, [sigmaCorrected] is [>= 0] and not
    [NaN]. *)
Theorem C2_summary :
  (forall (th : R) (i : nat) (d : R) (sa sm : option R),
      let a := sigma_or_zero sa in
      let m := sigma_or_zero sm in
      let s := App.summary (Fin th) (real_film i d sa sm) in
      sigmaCorrected s = Fin (corrected a m)
      /\ (0 <= m <= a -> sigmaCorrected s = Fin 0)
      /\ (a = 3 -> m = 5 -> sigmaCorrected s = Fin 4)
      /\ (0 < d -> theta s = Fin (corrected a m / d))
      /\ (d <= 0 -> theta s = Fin 0)
      /\ theoreticalSigma s = Fin (th * d))
  /\ (forall (th : number) (f : FilmSample),
        fitted_film f ->
        let s := App.summary th f in
        (exists a m : R,
            sigmaAir s = Fin a /\ sigmaMaterial s = Fin m /\ 0 <= a /\ 0 <= m
            /\ sigmaCorrected s = Fin (corrected a m)
            /\ (m <= a -> sigmaCorrected s = Fin 0))
        /\ (gt (distance s) (Fin 0) = true
            -> theta s = div (sigmaCorrected s) (distance s))
        /\ (gt (distance s) (Fin 0) = false -> theta s = Fin 0)
        /\ theoreticalSigma s = mul th (distance s))
  /\ (forall (th : number) (f : FilmSample),
      ge (sigmaCorrected (App.summary th f)) (Fin 0) = true
      /\ sigmaCorrected (App.summary th f) <> NaN).
Proof.
  split; [| split].
  - intros th i d sa sm a m s.
    assert (Hs : sigmaCorrected s = Fin (corrected a m))
      by apply summary_sigmaCorrected_real.
    assert (Ht := summary_theta_real (Fin th) i d sa sm).
    fold a m s in Ht.
    refine (conj Hs (conj _ (conj _ (conj _ (conj _ eq_refl))))).
    + intros [H0 Hle]. rewrite Hs. f_equal. apply corrected_clamped. nra.
    + intros Ha Hm. rewrite Hs, Ha, Hm. f_equal. unfold corrected.
      rewrite Rmax_right by lra.
      replace (5 * 5 - 3 * 3) with (4 * 4) by lra. apply sqrt_square. lra.
    + intros Hd. rewrite Ht. destruct (Rlt_dec 0 d); [reflexivity | contradiction].
    + intros Hd. rewrite Ht. destruct (Rlt_dec 0 d); [lra | reflexivity].
  - intros th f [Hfa Hfm] s.
    destruct (or_zero_fitted _ Hfa) as (a & Ha & Ea).
    destruct (or_zero_fitted _ Hfm) as (m & Hm & Em).
    assert (Hs : sigmaCorrected s = Fin (corrected a m))
      by now apply summary_sigmaCorrected_fin.
    split; [| split; [| split; [| reflexivity]]].
    + exists a, m.
      refine (conj Ea (conj Em (conj Ha (conj Hm (conj Hs _))))).
      intros Hle. rewrite Hs. f_equal. apply corrected_clamped. nra.
    + intros Hd. unfold s, App.summary in *. cbn [theta distance sigmaCorrected] in *.
      now rewrite Hd.
    + intros Hd. unfold s, App.summary in *. cbn [theta distance sigmaCorrected] in *.
      now rewrite Hd.
  - intros th f. destruct (summary_sigmaCorrected_sound th f). split; assumption.
Qed.

Lemma C2_summary_witness :
  sigmaCorrected (App.summary (Fin 0.03) (real_film 1 100 (Some 5) (Some 3))) = Fin 0
  /\ sigmaCorrected (App.summary (Fin 0.03) (real_film 1 100 (Some 3) (Some 5))) = Fin 4
  /\ theta (App.summary (Fin 0.03) (real_film 1 100 (Some 3) (Some 5)))
     = Fin (corrected 3 5 / 100)
  /\ theta (App.summary (Fin 0.03) (real_film 1 0 (Some 3) (Some 5))) = Fin 0
  /\ (exists a m : R,
         sigmaAir (App.summary (Fin 0.03) analyzed_film) = Fin a
         /\ sigmaMaterial (App.summary (Fin 0.03) analyzed_film) = Fin m
         /\ 0 <= a /\ 0 <= m
         /\ sigmaCorrected (App.summary (Fin 0.03) analyzed_film) = Fin (corrected a m)
         /\ (m <= a -> sigmaCorrected (App.summary (Fin 0.03) analyzed_film) = Fin 0)).
Proof.
  repeat apply conj.
  - apply (proj1 C2_summary 0.03 1%nat 100 (Some 5) (Some 3)). simpl. lra.
  - apply (proj1 C2_summary 0.03 1%nat 100 (Some 3) (Some 5)); reflexivity.
  - apply (proj1 C2_summary 0.03 1%nat 100 (Some 3) (Some 5)). lra.
  - apply (proj1 C2_summary 0.03 1%nat 0 (Some 3) (Some 5)). lra.
  - apply (proj1 (proj2 C2_summary) (Fin 0.03) analyzed_film).
    split.
    + exists (real_profile falling_profile). reflexivity.
    + exists (real_profile gaussian_samples). reflexivity.
Defined.

(** ** The aggregate RMS *)

Lemma filter_positive_real ts :
  List.filter (fun t => gt t (Fin 0)) (map Fin ts) = map Fin (positive_thetas ts).
Proof.
  unfold positive_thetas.
  induction ts as [|t ts IH]; simpl in *; [reflexivity |].
  destruct (Rltb 0 t); simpl; now rewrite IH.
Qed.

Lemma sum_squares_real pos acc :
  fold_left (fun sum theta => add sum (mul theta theta)) (map Fin pos) (Fin acc)
  = Fin (acc + Rsum (map (fun t => t * t) pos)).
Proof.
  revert acc. induction pos as [|t pos IH]; intros acc; cbn [map fold_left Rsum fold_right].
  - f_equal. lra.
  - cbn [mul add]. rewrite IH. f_equal. unfold Rsum. lra.
Qed.

Lemma Rsum_squares_nonneg l : 0 <= Rsum (map (fun t => t * t) l).
Proof.
  induction l as [|t l IH]; cbn [map Rsum fold_right]; [lra |].
  unfold Rsum in IH. nra.
Qed.

Lemma thetaRms_real rs ts :
  map theta rs = map Fin ts -> App.thetaRms rs = Fin (rms ts).
Proof.
  intros H. unfold App.thetaRms, rms. rewrite H, filter_positive_real.
  rewrite length_map.
  destruct (positive_thetas ts) as [|t pos] eqn:Hpos; [reflexivity |].
  cbn [length Nat.eqb]. rewrite sum_squares_real. unfold of_nat.
  assert (Hn : 0 < INR (S (length pos))) by (apply lt_0_INR; lia).
  rewrite div_fin by lra. rewrite Rplus_0_l.
  rewrite sqrt_fin; [reflexivity |].
  apply Rmult_le_pos; [apply Rsum_squares_nonneg | left; now apply Rinv_0_lt_compat].
Qed.

Lemma thetaRms_none rs :
  Forall (fun s => gt (theta s) (Fin 0) = false) rs -> App.thetaRms rs = Fin 0.
Proof.
  intros H. unfold App.thetaRms.
  assert (E : List.filter (fun t => gt t (Fin 0)) (map theta rs) = []).
  { induction H as [|s rs Hs _ IH]; [reflexivity |].
    cbn [map List.filter]. now rewrite Hs. }
  now rewrite E.
Qed.

(** C5. The aggregate [thetaRms] is [sqrt(mean(theta_i²))] over exactly the
    samples with [theta_i > 0]; it is 0 when no sample has [theta > 0];
    over the theta values 0.01, 0.02, 0 it is [sqrt((0.01² + 0.02²)/2)]. *)
Theorem C5_thetaRms :
  (forall (rs : list AnalysisSummary) (ts : list R),
      map theta rs = map Fin ts ->
      App.thetaRms rs
      = Fin (match List.filter (Rltb 0) ts with
             | [] => 0
             | pos => R_sqrt.sqrt (Rsum (map (fun t => t * t) pos) / INR (length pos))
             end))
  /\ (forall rs : list AnalysisSummary,
      Forall (fun s => gt (theta s) (Fin 0) = false) rs -> App.thetaRms rs = Fin 0)
  /\ (forall rs : list AnalysisSummary,
      map theta rs = [Fin 0.01; Fin 0.02; Fin 0] ->
      App.thetaRms rs = Fin (R_sqrt.sqrt ((0.01 * 0.01 + 0.02 * 0.02) / 2))).
Proof.
  split; [exact thetaRms_real | split; [exact thetaRms_none |]].
  intros rs H. rewrite (thetaRms_real rs [0.01; 0.02; 0] H).
  unfold rms, positive_thetas. cbn [List.filter]. rcmp.
  cbn [map Rsum fold_right length INR]. do 2 f_equal. lra.
Qed.

Lemma C5_thetaRms_witness :
  App.thetaRms (map summary_with_theta [Fin 0.01; Fin 0.02; Fin 0])
  = Fin (R_sqrt.sqrt ((0.01 * 0.01 + 0.02 * 0.02) / 2))
  /\ App.thetaRms (map summary_with_theta [Fin 0; NaN; Fin (-1)]) = Fin 0.
Proof.
  split.
  - apply (proj2 (proj2 C5_thetaRms)). reflexivity.
  - apply (proj1 (proj2 C5_thetaRms)).
    repeat constructor; simpl; apply Rltb_false; lra.
Defined.

(** ** fitGaussian: the window *)

Lemma peak_real_from pts m :
  fold_left (fun maxIntensity p =>
               if gt (intensity p) maxIntensity then intensity p else maxIntensity)
            (real_profile pts) (Fin m)
  = Fin (fold_left Rmax (map snd pts) m).
Proof.
  revert m. induction pts as [|p pts IH]; intros m; [reflexivity |].
  cbn [real_profile map fold_left real_point intensity gt lt].
  fold (real_profile pts).
  destruct (Rlt_dec m (snd p)) as [H | H].
  - rewrite Rltb_true by assumption. rewrite IH. now rewrite Rmax_right by lra.
  - rewrite Rltb_false by assumption. rewrite IH. now rewrite Rmax_left by lra.
Qed.

Lemma peak_real pts :
  Physics.peak (real_profile pts) = Fin (fold_left Rmax (map snd pts) 0).
Proof. apply peak_real_from. Qed.

Lemma fold_Rmax_ge l m : m <= fold_left Rmax l m.
Proof.
  revert m. induction l as [|x l IH]; intros m; simpl; [lra |].
  eapply Rle_trans; [apply (Rmax_l m x) | apply IH].
Qed.

Lemma fold_Rmax_mono l a b : a <= b -> fold_left Rmax l a <= fold_left Rmax l b.
Proof.
  revert a b. induction l as [|x l IH]; intros a b H; simpl; [assumption |].
  apply IH. now apply Rle_max_compat_r.
Qed.

Lemma fold_Rmax_In l m x : In x l -> x <= fold_left Rmax l m.
Proof.
  revert m. induction l as [|y l IH]; intros m; simpl; [tauto |].
  intros [-> | H].
  - eapply Rle_trans; [apply (Rmax_r m x) | apply fold_Rmax_ge].
  - now apply IH.
Qed.

(** The code starts its search for the peak at 0; on a profile with a
    non-negative maximum that is the maximum itself. *)
Lemma fold_Rmax_zero l :
  l <> [] -> 0 <= Rmaximum l -> fold_left Rmax l 0 = Rmaximum l.
Proof.
  destruct l as [|x l]; [congruence | intros _].
  cbn [Rmaximum fold_left]. intros H.
  destruct (Rle_dec 0 x) as [Hx | Hx].
  - now rewrite Rmax_right by assumption.
  - rewrite Rmax_left by lra.
    assert (Hmono : fold_left Rmax l x <= fold_left Rmax l 0)
      by (apply fold_Rmax_mono; lra).
    apply Rle_antisym; [| assumption].
    clear Hmono. revert x H Hx. induction l as [|y l IH]; intros x H Hx; simpl in *.
    + lra.
    + destruct (Rle_dec 0 y) as [Hy | Hy].
      * rewrite (Rmax_right 0 y) by assumption.
        rewrite (Rmax_right x y) by lra. lra.
      * rewrite (Rmax_left 0 y) by lra.
        assert (Hm : Rmax x y < 0) by (apply Rmax_lub_lt; lra).
        apply IH; [assumption | lra].
Qed.

Lemma Rmaximum_negative l : Rmaximum l < 0 -> fold_left Rmax l 0 = 0.
Proof.
  destruct l as [|x l]; cbn [Rmaximum fold_left]; [lra |].
  revert x. induction l as [|y l IH]; intros x H; simpl in *.
  - apply Rmax_left. lra.
  - pose proof (fold_Rmax_ge l (Rmax x y)) as Hge.
    pose proof (Rmax_l x y). pose proof (Rmax_r x y).
    rewrite (Rmax_left 0 x) by lra. rewrite (Rmax_left 0 y) by lra.
    specialize (IH y).
    assert (Hy : fold_left Rmax l y <= fold_left Rmax l (Rmax x y))
      by (apply fold_Rmax_mono; assumption).
    rewrite (Rmax_left 0 y) in IH by lra. apply IH. lra.
Qed.

Lemma in_window_real m p :
  Physics.in_window (Fin m) (real_point p)
  = Rltb (snd p) (m * 0.95) && Rltb (m * 0.30) (snd p) && Rltb 0 (fst p).
Proof. reflexivity. Qed.

(** The window the code selects with its 0-initialised peak is the window
    of the specification, taken with the true maximum. *)
Lemma window_agrees pts p :
  In p pts ->
  Physics.in_window (Physics.peak (real_profile pts)) (real_point p)
  = in_fit_window (Rmaximum (map snd pts)) p.
Proof.
  intros Hin. rewrite peak_real, in_window_real. unfold in_fit_window.
  assert (Hne : map snd pts <> []) by (destruct pts; [contradiction | discriminate]).
  destruct (Rle_dec 0 (Rmaximum (map snd pts))) as [Hm | Hm].
  - rewrite fold_Rmax_zero by assumption.
    set (M := Rmaximum (map snd pts)).
    replace (M * 0.95) with (0.95 * M) by ring.
    replace (M * 0.30) with (0.30 * M) by ring.
    destruct (Rltb (0.30 * M) (snd p)), (Rltb (snd p) (0.95 * M)); reflexivity.
  - rewrite Rmaximum_negative by lra.
    set (M := Rmaximum (map snd pts)) in *.
    replace (0 * 0.95) with 0 by ring. replace (0 * 0.30) with 0 by ring.
    destruct (Rlt_dec (snd p) 0) as [Hn | Hn].
    + rewrite (Rltb_false 0 (snd p)) by lra. rewrite andb_false_r. cbn [andb].
      destruct (Rlt_dec (0.30 * M) (snd p)) as [H1 | H1].
      * rewrite (Rltb_false (snd p) (0.95 * M)) by lra.
        now rewrite andb_false_r.
      * now rewrite (Rltb_false (0.30 * M) (snd p)) by assumption.
    + rewrite (Rltb_false (snd p) 0) by assumption. cbn [andb].
      rewrite (Rltb_false (snd p) (0.95 * M)) by lra.
      now rewrite andb_false_r.
Qed.

Lemma filter_ext_In {A} (f g : A -> bool) l :
  (forall a, In a l -> f a = g a) -> List.filter f l = List.filter g l.
Proof.
  induction l as [|a l IH]; intros H; [reflexivity |].
  cbn [List.filter]. rewrite (H a) by now left.
  rewrite IH; [reflexivity |]. intros b Hb. apply H. now right.
Qed.

Lemma filter_real_profile f pts :
  List.filter f (real_profile pts)
  = real_profile (List.filter (fun p => f (real_point p)) pts).
Proof.
  induction pts as [|p pts IH]; [reflexivity |].
  cbn [real_profile map List.filter]. fold (real_profile pts).
  destruct (f (real_point p)); cbn [map]; fold (real_profile pts);
    now rewrite IH.
Qed.

Lemma validPoints_real pts :
  Physics.validPoints (real_profile pts) = real_profile (fit_window pts).
Proof.
  unfold Physics.validPoints, fit_window. rewrite filter_real_profile.
  f_equal. apply filter_ext_In. intros p Hp. now apply window_agrees.
Qed.

(** ** fitGaussian: the regression *)

Lemma fit_window_In pts p :
  In p (fit_window pts) ->
  In p pts /\ 0 < fst p /\ 0 < snd p.
Proof.
  unfold fit_window. intros H. apply filter_In in H. destruct H as [Hin Hw].
  unfold in_fit_window in Hw.
  apply andb_prop in Hw. destruct Hw as [Hw Hr].
  apply andb_prop in Hw. destruct Hw as [Hlo Hhi].
  apply Rltb_spec in Hr, Hlo, Hhi.
  repeat split; [assumption | assumption | lra].
Qed.

Lemma regression_sums_real_from w a b c d :
  Forall (fun p => 0 < snd p) w ->
  fold_left Physics.regression_step (real_profile w)
            (Physics.mkSums (Fin a) (Fin b) (Fin c) (Fin d))
  = let l := map linearized w in
    Physics.mkSums (Fin (a + Rsum (map fst l)))
                   (Fin (b + Rsum (map snd l)))
                   (Fin (c + Rsum (map (fun q => fst q * snd q) l)))
                   (Fin (d + Rsum (map (fun q => fst q * fst q) l))).
Proof.
  intros H. revert a b c d.
  induction H as [|p w Hp _ IH]; intros a b c d.
  - cbn. now rewrite !Rplus_0_r.
  - cbn [real_profile map fold_left]. fold (real_profile w).
    unfold Physics.regression_step at 2.
    cbn [real_point radius intensity Physics.sX Physics.sY Physics.sXY Physics.sXX].
    rewrite log_fin by assumption. cbn [mul add].
    rewrite IH. cbn zeta. cbn [map Rsum fold_right linearized fst snd].
    unfold Rsum. f_equal; f_equal; ring.
Qed.

Lemma slope_of_real w :
  Forall (fun p => 0 < snd p) w ->
  Physics.slope_of (real_profile w)
  = div (Fin (ols_num (map linearized w))) (Fin (ols_den (map linearized w))).
Proof.
  intros H. unfold Physics.slope_of, Physics.regression_sums.
  rewrite (regression_sums_real_from w 0 0 0 0 H). cbn zeta.
  cbn [Physics.sX Physics.sY Physics.sXY Physics.sXX].
  unfold real_profile, of_nat. rewrite length_map.
  cbn [mul sub add neg]. unfold ols_num, ols_den. rewrite !length_map.
  f_equal; f_equal; ring.
Qed.

Lemma fit_window_positive pts : Forall (fun p => 0 < snd p) (fit_window pts).
Proof. apply List.Forall_forall. intros p Hp. now apply fit_window_In in Hp. Qed.


Lemma fitGaussian_fit pts :
  (5 <= length (fit_window pts))%nat ->
  ols_den (map linearized (fit_window pts)) <> 0 ->
  Physics.fitGaussian (real_profile pts)
  = if Rle_dec 0 (window_slope pts) then Fin 0
    else Fin (R_sqrt.sqrt (-1 / (2 * window_slope pts))).
Proof.
  intros Hlen Hden. unfold Physics.fitGaussian. rewrite validPoints_real.
  unfold real_profile at 1. rewrite length_map.
  apply Nat.ltb_ge in Hlen. rewrite Hlen.
  rewrite slope_of_real by apply fit_window_positive.
  rewrite div_fin by assumption.
  fold (ols_slope (map linearized (fit_window pts))). fold (window_slope pts).
  cbn [ge le mul].
  destruct (Rle_dec 0 (window_slope pts)) as [Hm | Hm].
  - now rewrite Rleb_true by assumption.
  - rewrite Rleb_false by assumption.
    assert (Hneg : window_slope pts < 0) by lra.
    rewrite div_fin by lra. apply sqrt_fin.
    assert (0 < / (2 * - window_slope pts)) by (apply Rinv_0_lt_compat; lra).
    replace (-1 / (2 * window_slope pts)) with (/ (2 * - window_slope pts)).
    + lra.
    + field. lra.
Qed.

Lemma ols_slope_undefined l : ols_den l = 0 -> ols_slope l = 0.
Proof. intros H. unfold ols_slope, Rdiv. rewrite H, Rinv_0. ring. Qed.

(** C1. On every real radial profile whose fit window (intensity strictly
    between 0.30 and 0.95 of the maximum intensity, radius strictly
    positive) holds at least 5 points and whose least-squares slope [m] of
    [ln(intensity)] against [radius²] over the window,
    [m = (n·ΣXY − ΣX·ΣY) / (n·ΣXX − (ΣX)²)], is strictly negative,
    [fitGaussian] returns exactly [sqrt(-1/(2·m))]. *)
Theorem C1_fitGaussian_sigma (pts : list (R * R)) :
  let w := fit_window pts in
  let X := map (fun p => fst p * fst p) w in
  let Y := map (fun p => ln (snd p)) w in
  let XY := map (fun p => (fst p * fst p) * ln (snd p)) w in
  let XX := map (fun p => (fst p * fst p) * (fst p * fst p)) w in
  let n := INR (length w) in
  let m := (n * Rsum XY - Rsum X * Rsum Y) / (n * Rsum XX - Rsum X * Rsum X) in
  (5 <= length w)%nat ->
  m < 0 ->
  Physics.fitGaussian (real_profile pts) = Fin (R_sqrt.sqrt (-1 / (2 * m))).
Proof.
  intros w X Y XY XX n m Hlen Hm.
  assert (E : m = window_slope pts).
  { unfold m, window_slope, ols_slope, ols_num, ols_den, n, X, Y, XY, XX.
    fold w. rewrite !length_map, !map_map. cbn [linearized fst snd]. reflexivity. }
  assert (Hden : ols_den (map linearized (fit_window pts)) <> 0).
  { intros H0. apply ols_slope_undefined in H0. unfold window_slope in E. lra. }
  rewrite (fitGaussian_fit pts Hlen Hden). rewrite <- E.
  destruct (Rle_dec 0 m); [lra | reflexivity].
Qed.

Ltac rmax :=
  repeat match goal with
  | |- context [Rmax ?a ?b] =>
      first [ rewrite (Rmax_left a b) by lra | rewrite (Rmax_right a b) by lra ]
  end.

Lemma falling_profile_window :
  fit_window falling_profile = [(1, 0.9); (1, 0.9); (1, 0.9); (2, 0.5); (2, 0.5)].
Proof.
  unfold fit_window, falling_profile, in_fit_window.
  cbn [map snd fst Rmaximum fold_left]. rmax.
  cbn [List.filter fst snd]. rcmp. cbn [andb]. rcmp. reflexivity.
Qed.

Lemma C1_fitGaussian_sigma_witness :
  Physics.fitGaussian (real_profile falling_profile)
  = Fin (R_sqrt.sqrt (-1 / (2 * ((ln 0.5 - ln 0.9) / 3)))).
Proof.
  pose proof (C1_fitGaussian_sigma falling_profile) as H. cbv zeta in H.
  rewrite falling_profile_window in H.
  cbn [map length fst snd Rsum fold_right INR] in H.
  assert (Hln : ln 0.5 < ln 0.9) by (apply ln_increasing; lra).
  match type of H with
  | _ -> ?m < 0 -> _ =>
      replace m with ((ln 0.5 - ln 0.9) / 3) in H by (field_simplify; lra)
  end.
  apply H; [lia | lra].
Defined.

(** ** fitGaussian: rising profiles *)

Lemma StronglySorted_filter_bool {A} (Rel : A -> A -> Prop) (f : A -> bool) l :
  StronglySorted Rel l -> StronglySorted Rel (List.filter f l).
Proof.
  induction 1 as [|a l Hs IH Hall]; cbn [List.filter]; [constructor |].
  destruct (f a); [| assumption].
  constructor; [assumption |].
  apply List.Forall_forall. intros b Hb. apply filter_In in Hb.
  rewrite List.Forall_forall in Hall. now apply Hall.
Qed.


Lemma square_sum x l :
  Rsum (map (fun q : R * R => (fst q - x) * (fst q - x)) l)
  = Rsum (map (fun q => fst q * fst q) l) - 2 * x * Rsum (map fst l)
    + INR (length l) * x * x.
Proof.
  induction l as [|q l IH].
  - cbn. ring.
  - cbn [map Rsum fold_right length]. rewrite S_INR.
    unfold Rsum in *. rewrite IH. ring.
Qed.


Lemma ols_den_cons x y l :
  ols_den ((x, y) :: l)
  = ols_den l + Rsum (map (fun q : R * R => (fst q - x) * (fst q - x)) l).
Proof.
  rewrite square_sum. unfold ols_den.
  cbn [map Rsum fold_right length fst snd]. rewrite S_INR. unfold Rsum. ring.
Qed.

Lemma Rsum_nonneg {A} (f : A -> R) l :
  Forall (fun a => 0 <= f a) l -> 0 <= Rsum (map f l).
Proof.
  induction 1 as [|a l Ha _ IH]; cbn [map Rsum fold_right]; [lra |].
  unfold Rsum in IH. lra.
Qed.

Lemma Rsum_positive {A} (f : A -> R) l :
  l <> [] -> Forall (fun a => 0 < f a) l -> 0 < Rsum (map f l).
Proof.
  intros Hne H. induction H as [|a l Ha Hl IH]; [congruence |].
  cbn [map Rsum fold_right].
  assert (0 <= Rsum (map f l)).
  { apply Rsum_nonneg. eapply List.Forall_impl; [| exact Hl]. intros b Hb. simpl in Hb. lra. }
  unfold Rsum in *. lra.
Qed.


Lemma ols_den_nonneg l : 0 <= ols_den l.
Proof.
  induction l as [|[x y] l IH].
  - unfold ols_den. cbn. lra.
  - rewrite ols_den_cons.
    assert (0 <= Rsum (map (fun q : R * R => (fst q - x) * (fst q - x)) l)).
    { apply Rsum_nonneg. apply List.Forall_forall. intros q _. apply Rle_0_sqr. }
    lra.
Qed.









(** ** The pixel loops *)

(** The two nested [for] loops visit the pixels in scan order. *)
Lemma nested_loops {S : Type} (step : nat -> S -> nat -> S) (xs ys : list nat) (s : S) :
  fold_left (fun a y => fold_left (step y) xs a) ys s
  = fold_left (fun a p => step (snd p) a (fst p))
              (flat_map (fun y => map (fun x => (x, y)) xs) ys) s.
Proof.
  revert s. induction ys as [|y ys IH]; intros s; [reflexivity |].
  cbn [fold_left flat_map]. rewrite fold_left_app, IH. f_equal.
  clear IH. revert s. induction xs as [|x xs IHx]; intros s; [reflexivity |].
  cbn [map fold_left fst snd]. apply IHx.
Qed.

Lemma pixels_In img p :
  In p (pixels img) -> (fst p < width img)%nat /\ (snd p < height img)%nat.
Proof.
  unfold pixels. intros H. apply in_flat_map in H. destruct H as (y & Hy & Hp).
  apply in_map_iff in Hp. destruct Hp as (x & <- & Hx).
  apply in_seq in Hx, Hy. cbn [fst snd]. lia.
Qed.

Lemma channel_defined d i :
  (i < length d)%nat -> Physics.channel d i = Fin (channel_real d i).
Proof.
  intros H. unfold Physics.channel, channel_real.
  destruct (lookup_lt_is_Some_2 d i H) as [b Hb].
  rewrite Hb. now rewrite (nth_lookup_Some d i x00 b Hb).
Qed.

Lemma pixel_intensity_real img x y :
  wf_image img -> (x < width img)%nat -> (y < height img)%nat ->
  Physics.pixel_intensity img x y = Fin (intensity_at img x y).
Proof.
  intros Hwf Hx Hy.
  unfold Physics.pixel_intensity, Physics.brightness, intensity_at.
  assert (Hi : ((y * width img + x) * 4 + 3 < length (data img))%nat)
    by (rewrite Hwf; nia).
  rewrite !channel_defined by lia.
  cbn [add]. rewrite div_fin by lra. reflexivity.
Qed.

(** ** calculateCentroid *)

Lemma centroid_pixel_real img p m sx sy :
  Physics.pixel_intensity img (fst p) (snd p) = Fin (intensity_at img (fst p) (snd p)) ->
  Physics.centroid_pixel img (snd p) (Physics.mkAcc (Fin m) (Fin sx) (Fin sy)) (fst p)
  = Physics.mkAcc (Fin (m + mass_at img p))
                  (Fin (sx + INR (fst p) * mass_at img p))
                  (Fin (sy + INR (snd p) * mass_at img p)).
Proof.
  intros HI. unfold Physics.centroid_pixel, mass_at. rewrite HI.
  cbn [gt lt]. destruct (Rltb 20 (intensity_at img (fst p) (snd p))).
  - reflexivity.
  - f_equal; f_equal; ring.
Qed.

Lemma centroid_fold_real img ps m sx sy :
  Forall (fun p => Physics.pixel_intensity img (fst p) (snd p)
                   = Fin (intensity_at img (fst p) (snd p))) ps ->
  fold_left (fun a p => Physics.centroid_pixel img (snd p) a (fst p)) ps
            (Physics.mkAcc (Fin m) (Fin sx) (Fin sy))
  = Physics.mkAcc (Fin (m + Rsum (map (mass_at img) ps)))
                  (Fin (sx + Rsum (map (fun p => INR (fst p) * mass_at img p) ps)))
                  (Fin (sy + Rsum (map (fun p => INR (snd p) * mass_at img p) ps))).
Proof.
  intros H. revert m sx sy.
  induction H as [|p ps Hp _ IH]; intros m sx sy.
  - cbn. now rewrite !Rplus_0_r.
  - cbn [fold_left]. rewrite centroid_pixel_real by assumption. rewrite IH.
    cbn [map Rsum fold_right]. unfold Rsum. f_equal; f_equal; ring.
Qed.

Lemma pixels_real img :
  wf_image img ->
  Forall (fun p => Physics.pixel_intensity img (fst p) (snd p)
                   = Fin (intensity_at img (fst p) (snd p))) (pixels img).
Proof.
  intros Hwf. apply List.Forall_forall. intros p Hp.
  apply pixels_In in Hp. now apply pixel_intensity_real.
Qed.

Lemma centroid_scan_real img :
  wf_image img ->
  Physics.centroid_scan img
  = Physics.mkAcc (Fin (total_mass img)) (Fin (moment_x img)) (Fin (moment_y img)).
Proof.
  intros Hwf. unfold Physics.centroid_scan, Physics.centroid_row.
  rewrite (nested_loops (Physics.centroid_pixel img)). fold (pixels img).
  rewrite centroid_fold_real by now apply pixels_real.
  unfold total_mass, moment_x, moment_y. now rewrite !Rplus_0_l.
Qed.

Lemma calculateCentroid_real img :
  wf_image img ->
  Physics.calculateCentroid img
  = if Req_dec_T (total_mass img) 0
    then real_pt (INR (width img) / 2) (INR (height img) / 2)
    else real_pt (moment_x img / total_mass img) (moment_y img / total_mass img).
Proof.
  intros Hwf. unfold Physics.calculateCentroid. rewrite centroid_scan_real by assumption.
  cbn [Physics.totalMass Physics.sumX Physics.sumY strict_eq]. unfold of_nat, real_pt.
  destruct (Req_dec_T (total_mass img) 0) as [H0 | H0].
  - rewrite Reqb_true by assumption. now rewrite !div_fin by lra.
  - rewrite Reqb_false by assumption. now rewrite !div_fin by assumption.
Qed.

Lemma mass_at_nonneg img p : 0 <= mass_at img p.
Proof.
  unfold mass_at. destruct (Rltb 20 (intensity_at img (fst p) (snd p))) eqn:H; [| lra].
  apply Rltb_spec in H. lra.
Qed.

Lemma total_mass_nonneg img : 0 <= total_mass img.
Proof.
  unfold total_mass. apply Rsum_nonneg. apply List.Forall_forall.
  intros p _. apply mass_at_nonneg.
Qed.

(** A weighted sum of coordinates below [n] is at most [n - 1] times the weight. *)
Lemma weighted_sum_bounds (coord : nat * nat -> nat) (wgt : nat * nat -> R) (n : nat) ps :
  Forall (fun p => (coord p < n)%nat /\ 0 <= wgt p) ps ->
  0 <= Rsum (map (fun p => INR (coord p) * wgt p) ps)
       <= (INR n - 1) * Rsum (map wgt ps).
Proof.
  induction 1 as [|p ps [Hc Hw] _ IH]; cbn [map Rsum fold_right]; [lra |].
  unfold Rsum in IH.
  assert (0 <= INR (coord p)) by apply pos_INR.
  assert (INR (coord p) <= INR n - 1).
  { assert (H1 : INR (coord p) + 1 <= INR n)
      by (rewrite <- S_INR; apply le_INR; lia). lra. }
  split; nra.
Qed.

Lemma moment_x_bounds img : 0 <= moment_x img <= (INR (width img) - 1) * total_mass img.
Proof.
  unfold moment_x, total_mass. apply weighted_sum_bounds.
  apply List.Forall_forall. intros p Hp. apply pixels_In in Hp.
  split; [tauto | apply mass_at_nonneg].
Qed.

Lemma moment_y_bounds img : 0 <= moment_y img <= (INR (height img) - 1) * total_mass img.
Proof.
  unfold moment_y, total_mass. apply weighted_sum_bounds.
  apply List.Forall_forall. intros p Hp. apply pixels_In in Hp.
  split; [tauto | apply mass_at_nonneg].
Qed.

Lemma quotient_bounds s m k : 0 < m -> 0 <= s <= k * m -> 0 <= s / m <= k.
Proof.
  intros Hm [H0 Hk]. assert (Hi : 0 < / m) by now apply Rinv_0_lt_compat.
  unfold Rdiv. split; [apply Rmult_le_pos; lra |].
  replace k with (k * m * / m) by (field; lra).
  apply Rmult_le_compat_r; lra.
Qed.

Lemma calculateCentroid_cases img :
  wf_image img ->
  (total_mass img = 0
   /\ Physics.calculateCentroid img
      = real_pt (INR (width img) / 2) (INR (height img) / 2))
  \/ (0 < total_mass img
      /\ Physics.calculateCentroid img
         = real_pt (moment_x img / total_mass img) (moment_y img / total_mass img)).
Proof.
  intros Hwf. rewrite calculateCentroid_real by assumption.
  pose proof (total_mass_nonneg img).
  destruct (Req_dec_T (total_mass img) 0); [left | right]; split;
    try reflexivity; try assumption; lra.
Qed.

(** C9. On every sample grid whose above-threshold mass (the sum of the
    intensities [I = 255 − brightness] over the samples with [I > 20]) is
    exactly zero, [calculateCentroid] returns [(width/2, height/2)]; on
    every grid the function returns a point with finite coordinates, and
    it divides by the mass only when the mass is strictly positive. *)
Theorem C9_centroid_zero_mass :
  (forall img : ImageData,
      wf_image img -> total_mass img = 0 ->
      Physics.calculateCentroid img
      = real_pt (INR (width img) / 2) (INR (height img) / 2))
  /\ (forall img : ImageData,
      wf_image img ->
      (exists cx cy, Physics.calculateCentroid img = real_pt cx cy)
      /\ (total_mass img <> 0 ->
          0 < total_mass img
          /\ Physics.calculateCentroid img
             = real_pt (moment_x img / total_mass img)
                       (moment_y img / total_mass img))).
Proof.
  split.
  - intros img Hwf H0.
    destruct (calculateCentroid_cases img Hwf) as [[_ E] | [Hpos _]]; [exact E | lra].
  - intros img Hwf.
    destruct (calculateCentroid_cases img Hwf) as [[H0 E] | [Hpos E]].
    + split; [eauto | intros Hne; contradiction].
    + split; [eauto | intros _; split; assumption].
Qed.

(** C10. The point returned by [calculateCentroid] lies inside the grid:
    [0 <= x <= width] and [0 <= y <= height]; when the mass is not zero
    the weighted mean lies in [[0, width − 1] × [0, height − 1]]. *)
Theorem C10_centroid_in_bounds (img : ImageData) :
  wf_image img -> (1 <= width img)%nat -> (1 <= height img)%nat ->
  exists cx cy,
    Physics.calculateCentroid img = real_pt cx cy
    /\ 0 <= cx <= INR (width img) /\ 0 <= cy <= INR (height img)
    /\ (total_mass img <> 0 ->
        cx <= INR (width img) - 1 /\ cy <= INR (height img) - 1).
Proof.
  intros Hwf _ _.
  pose proof (pos_INR (width img)). pose proof (pos_INR (height img)).
  destruct (calculateCentroid_cases img Hwf) as [[Hz E] | [Hpos E]].
  - exists (INR (width img) / 2), (INR (height img) / 2).
    split; [exact E |]. split; [lra |]. split; [lra |]. intros Hne. contradiction.
  - pose proof (quotient_bounds _ _ _ Hpos (moment_x_bounds img)) as Hx.
    pose proof (quotient_bounds _ _ _ Hpos (moment_y_bounds img)) as Hy.
    exists (moment_x img / total_mass img), (moment_y img / total_mass img).
    split; [exact E |]. split; [lra |]. split; [lra |]. intros _. lra.
Qed.

(** ** Uniform grids *)

Lemma Rsum_ext_In {A} (f g : A -> R) l :
  (forall a, In a l -> f a = g a) -> Rsum (map f l) = Rsum (map g l).
Proof.
  induction l as [|a l IH]; intros H; [reflexivity |].
  cbn [map Rsum fold_right]. rewrite (H a) by now left.
  unfold Rsum in IH. rewrite IH; [reflexivity |]. intros b Hb. apply H. now right.
Qed.

Lemma Rsum_app l1 l2 : Rsum (l1 ++ l2) = Rsum l1 + Rsum l2.
Proof.
  unfold Rsum. induction l1 as [|a l1 IH]; simpl; [ring |].
  rewrite IH. ring.
Qed.

Lemma Rsum_const {A} (c : R) (l : list A) : Rsum (map (fun _ => c) l) = INR (length l) * c.
Proof.
  induction l as [|a l IH]; [cbn; ring |].
  cbn [map Rsum fold_right length]. rewrite S_INR. unfold Rsum in IH. rewrite IH. ring.
Qed.

Lemma Rsum_grid_columns (g : nat -> R) (xs ys : list nat) :
  Rsum (map (fun p : nat * nat => g (fst p))
            (flat_map (fun y => map (fun x => (x, y)) xs) ys))
  = INR (length ys) * Rsum (map g xs).
Proof.
  induction ys as [|y ys IH]; [cbn; ring |].
  cbn [flat_map length]. rewrite map_app, Rsum_app, IH, S_INR, map_map.
  replace (map (fun x : nat => g (fst (x, y))) xs) with (map g xs) by reflexivity.
  ring.
Qed.

Lemma Rsum_grid_rows (g : nat -> R) (xs ys : list nat) :
  Rsum (map (fun p : nat * nat => g (snd p))
            (flat_map (fun y => map (fun x => (x, y)) xs) ys))
  = INR (length xs) * Rsum (map g ys).
Proof.
  induction ys as [|y ys IH]; [cbn; ring |].
  cbn [flat_map map]. rewrite map_app, Rsum_app, IH, map_map.
  replace (map (fun x : nat => g (snd (x, y))) xs) with (map (fun _ : nat => g y) xs)
    by reflexivity.
  rewrite Rsum_const. unfold Rsum. simpl. ring.
Qed.

Lemma Rsum_indices n : Rsum (map INR (seq 0 n)) = INR n * (INR n - 1) / 2.
Proof.
  induction n as [|n IH]; [cbn; lra |].
  rewrite seq_S, map_app, Rsum_app, IH, S_INR. cbn [map Rsum fold_right plus]. lra.
Qed.

Lemma uniform_mass_above img c :
  uniform_grid img c -> 20 < c ->
  forall p, In p (pixels img) -> mass_at img p = c.
Proof.
  intros Hu Hc p Hp. apply pixels_In in Hp. destruct Hp as [Hx Hy].
  unfold mass_at. rewrite (Hu _ _ Hx Hy). now rewrite Rltb_true.
Qed.

Lemma uniform_mass_below img c :
  uniform_grid img c -> c <= 20 ->
  forall p, In p (pixels img) -> mass_at img p = 0.
Proof.
  intros Hu Hc p Hp. apply pixels_In in Hp. destruct Hp as [Hx Hy].
  unfold mass_at. rewrite (Hu _ _ Hx Hy). now rewrite Rltb_false by lra.
Qed.

Lemma uniform_below_centroid img c :
  wf_image img -> uniform_grid img c -> c <= 20 ->
  Physics.calculateCentroid img = real_pt (INR (width img) / 2) (INR (height img) / 2).
Proof.
  intros Hwf Hu Hc.
  assert (H0 : total_mass img = 0).
  { unfold total_mass.
    rewrite (Rsum_ext_In _ (fun _ => 0) _ (uniform_mass_below img c Hu Hc)).
    rewrite Rsum_const. ring. }
  destruct (calculateCentroid_cases img Hwf) as [[_ E] | [Hpos _]]; [exact E | lra].
Qed.

Lemma uniform_above_centroid img c :
  wf_image img -> uniform_grid img c -> 20 < c ->
  (1 <= width img)%nat -> (1 <= height img)%nat ->
  Physics.calculateCentroid img
  = real_pt ((INR (width img) - 1) / 2) ((INR (height img) - 1) / 2).
Proof.
  intros Hwf Hu Hc Hw Hh.
  assert (HW : 1 <= INR (width img)) by (change 1 with (INR 1); now apply le_INR).
  assert (HH : 1 <= INR (height img)) by (change 1 with (INR 1); now apply le_INR).
  pose proof (uniform_mass_above img c Hu Hc) as Hm.
  assert (Ht : total_mass img = INR (height img) * (INR (width img) * c)).
  { unfold total_mass. rewrite (Rsum_ext_In _ (fun _ => c) _ Hm).
    transitivity (INR (length (seq 0 (height img)))
                  * Rsum (map (fun _ : nat => c) (seq 0 (width img))));
      [exact (Rsum_grid_columns (fun _ => c) _ _) |].
    now rewrite Rsum_const, !length_seq. }
  assert (Hx : moment_x img
               = INR (height img) * (c * (INR (width img) * (INR (width img) - 1) / 2))).
  { unfold moment_x.
    rewrite (Rsum_ext_In _ (fun p => INR (fst p) * c) (pixels img))
      by (intros p Hp; now rewrite (Hm p Hp)).
    transitivity (INR (length (seq 0 (height img)))
                  * Rsum (map (fun x => INR x * c) (seq 0 (width img))));
      [exact (Rsum_grid_columns (fun x => INR x * c) _ _) |].
    rewrite length_seq. f_equal.
    rewrite <- Rsum_indices.
    induction (seq 0 (width img)) as [|x xs IH]; cbn [map Rsum fold_right]; [ring |].
    unfold Rsum in IH. rewrite IH. ring. }
  assert (Hy : moment_y img
               = INR (width img) * (c * (INR (height img) * (INR (height img) - 1) / 2))).
  { unfold moment_y.
    rewrite (Rsum_ext_In _ (fun p => INR (snd p) * c) (pixels img))
      by (intros p Hp; now rewrite (Hm p Hp)).
    transitivity (INR (length (seq 0 (width img)))
                  * Rsum (map (fun y => INR y * c) (seq 0 (height img))));
      [exact (Rsum_grid_rows (fun y => INR y * c) _ _) |].
    rewrite length_seq. f_equal.
    rewrite <- Rsum_indices.
    induction (seq 0 (height img)) as [|y ys IH]; cbn [map Rsum fold_right]; [ring |].
    unfold Rsum in IH. rewrite IH. ring. }
  assert (Hpos : 0 < total_mass img) by (rewrite Ht; repeat apply Rmult_lt_0_compat; lra).
  destruct (calculateCentroid_cases img Hwf) as [[H0 _] | [_ E]]; [lra |].
  rewrite E, Hx, Hy, Ht. unfold real_pt. f_equal; f_equal; field; lra.
Qed.

(** C6 (amended). On a uniform sample grid of width [w] and height [h],
    [calculateCentroid] returns the fallback [(w/2, h/2)] when the uniform
    intensity is at or below the background threshold 20, and the mean
    pixel index [((w − 1)/2, (h − 1)/2)] when it is above the threshold. *)
Theorem C6_uniform_centroid (img : ImageData) (c : R) :
  wf_image img -> uniform_grid img c ->
  (1 <= width img)%nat -> (1 <= height img)%nat ->
  (c <= 20 ->
   Physics.calculateCentroid img
   = real_pt (INR (width img) / 2) (INR (height img) / 2))
  /\ (20 < c ->
      Physics.calculateCentroid img
      = real_pt ((INR (width img) - 1) / 2) ((INR (height img) - 1) / 2)).
Proof.
  intros Hwf Hu Hw Hh. split; intros Hc.
  - now apply (uniform_below_centroid img c).
  - now apply (uniform_above_centroid img c).
Qed.

(** ** Floor and ceiling *)

Lemma Rfloor_spec r : IZR (Rfloor r) <= r < IZR (Rfloor r) + 1.
Proof. unfold Rfloor. destruct (base_Int_part r). lra. Qed.

Lemma Rfloor_unique r z : IZR z <= r < IZR z + 1 -> Rfloor r = z.
Proof.
  intros [H1 H2]. destruct (Rfloor_spec r) as [H3 H4].
  assert (Ha : (z < Rfloor r + 1)%Z).
  { apply lt_IZR. rewrite plus_IZR. simpl. lra. }
  assert (Hb : (Rfloor r < z + 1)%Z).
  { apply lt_IZR. rewrite plus_IZR. simpl. lra. }
  lia.
Qed.

Lemma Rfloor_IZR z : Rfloor (IZR z) = z.
Proof. apply Rfloor_unique. lra. Qed.

Lemma Rfloor_nonneg r : 0 <= r -> (0 <= Rfloor r)%Z.
Proof.
  intros H. destruct (Rfloor_spec r) as [_ H2].
  assert (Ha : (-1 < Rfloor r)%Z) by (apply lt_IZR; simpl; lra). lia.
Qed.

Lemma Rceil_spec r : IZR (Rceil r) - 1 < r <= IZR (Rceil r).
Proof.
  unfold Rceil. rewrite opp_IZR. destruct (Rfloor_spec (- r)) as [H1 H2]. lra.
Qed.

Lemma Rceil_unique r z : IZR z - 1 < r <= IZR z -> Rceil r = z.
Proof.
  intros [H1 H2]. unfold Rceil.
  rewrite (Rfloor_unique (- r) (- z)%Z); [lia |].
  rewrite opp_IZR. lra.
Qed.

Lemma INR_Z_to_nat z : (0 <= z)%Z -> INR (Z.to_nat z) = IZR z.
Proof. intros H. rewrite INR_IZR_INZ. now rewrite Z2Nat.id. Qed.

(** ** calculateRadialProfile: accumulation *)

Lemma radius_at_nonneg cx cy p : 0 <= radius_at cx cy p.
Proof. apply sqrt_pos. Qed.

Lemma pixel_radius_real cx cy p :
  Physics.pixel_radius (real_pt cx cy) (fst p) (snd p) = Fin (radius_at cx cy p).
Proof.
  unfold Physics.pixel_radius, real_pt, of_nat.
  cbn [pt_x pt_y sub neg add mul]. unfold radius_at.
  rewrite sqrt_fin by (apply Rplus_le_le_0_compat; apply Rle_0_sqr).
  reflexivity.
Qed.

Lemma bin_of_INR cx cy p : INR (bin_of cx cy p) = IZR (Rfloor (radius_at cx cy p)).
Proof.
  unfold bin_of. apply INR_Z_to_nat. apply Rfloor_nonneg, radius_at_nonneg.
Qed.

(** One iteration of the inner loop, on a sample with a real intensity and
    a real centroid. *)
Lemma profile_pixel_real img cx cy p b :
  Physics.pixel_intensity img (fst p) (snd p) = Fin (intensity_at img (fst p) (snd p)) ->
  Physics.profile_pixel img (real_pt cx cy) (snd p) b (fst p)
  = if (bin_of cx cy p <? length (Physics.bins b))%nat then
      {| Physics.bins :=
           alter (fun s => add s (Fin (intensity_at img (fst p) (snd p))))
                 (bin_of cx cy p) (Physics.bins b);
         Physics.counts := alter S (bin_of cx cy p) (Physics.counts b) |}
    else b.
Proof.
  intros HI. unfold Physics.profile_pixel.
  rewrite HI, pixel_radius_real. cbn [floor lt]. unfold of_nat.
  rewrite <- bin_of_INR. unfold Physics.array_index.
  rewrite Rleb_true by apply pos_INR.
  rewrite bin_of_INR, Rfloor_IZR. fold (bin_of cx cy p).
  destruct (Nat.ltb_spec (bin_of cx cy p) (length (Physics.bins b))) as [H | H].
  - rewrite Rltb_true by (rewrite <- bin_of_INR; now apply lt_INR). reflexivity.
  - rewrite Rltb_false; [reflexivity |].
    rewrite <- bin_of_INR. apply Rle_not_lt. now apply le_INR.
Qed.

Lemma profile_pixel_bins img cx cy p b k :
  Physics.pixel_intensity img (fst p) (snd p) = Fin (intensity_at img (fst p) (snd p)) ->
  Physics.bins (Physics.profile_pixel img (real_pt cx cy) (snd p) b (fst p)) !! k
  = if (bin_of cx cy p =? k)%nat
    then (fun s => add s (Fin (intensity_at img (fst p) (snd p)))) <$> Physics.bins b !! k
    else Physics.bins b !! k.
Proof.
  intros HI. rewrite profile_pixel_real by assumption.
  destruct (Nat.eqb_spec (bin_of cx cy p) k) as [-> | Hne];
    destruct (Nat.ltb_spec k (length (Physics.bins b))) as [Hlt | Hge];
    cbn [Physics.bins].
  - apply list_lookup_alter_eq.
  - now rewrite (lookup_ge_None_2 _ _ Hge).
  - destruct (bin_of cx cy p <? length (Physics.bins b))%nat; cbn [Physics.bins];
      [now apply list_lookup_alter_ne | reflexivity].
  - destruct (bin_of cx cy p <? length (Physics.bins b))%nat; cbn [Physics.bins];
      [now apply list_lookup_alter_ne | reflexivity].
Qed.

Lemma profile_pixel_lengths img c y b x :
  length (Physics.bins (Physics.profile_pixel img c y b x)) = length (Physics.bins b)
  /\ length (Physics.counts (Physics.profile_pixel img c y b x))
     = length (Physics.counts b).
Proof.
  unfold Physics.profile_pixel.
  destruct (lt _ _); [| split; reflexivity].
  destruct (Physics.array_index _); cbn [Physics.bins Physics.counts];
    [now rewrite !length_alter | split; reflexivity].
Qed.

Lemma profile_pixel_counts img cx cy p b k :
  Physics.pixel_intensity img (fst p) (snd p) = Fin (intensity_at img (fst p) (snd p)) ->
  length (Physics.counts b) = length (Physics.bins b) ->
  Physics.counts (Physics.profile_pixel img (real_pt cx cy) (snd p) b (fst p)) !! k
  = if (bin_of cx cy p =? k)%nat then S <$> Physics.counts b !! k
    else Physics.counts b !! k.
Proof.
  intros HI Hlen. rewrite profile_pixel_real by assumption.
  destruct (Nat.eqb_spec (bin_of cx cy p) k) as [-> | Hne];
    destruct (Nat.ltb_spec k (length (Physics.bins b))) as [Hlt | Hge];
    cbn [Physics.counts].
  - apply list_lookup_alter_eq.
  - rewrite <- Hlen in Hge. now rewrite (lookup_ge_None_2 _ _ Hge).
  - destruct (bin_of cx cy p <? length (Physics.bins b))%nat; cbn [Physics.counts];
      [now apply list_lookup_alter_ne | reflexivity].
  - destruct (bin_of cx cy p <? length (Physics.bins b))%nat; cbn [Physics.counts];
      [now apply list_lookup_alter_ne | reflexivity].
Qed.

Section Accumulation.

Variable img : ImageData.
Variables cx cy : R.

Lemma accumulate_fold_lengths ps b :
  length (Physics.bins (fold_left (scan_step img cx cy) ps b)) = length (Physics.bins b)
  /\ length (Physics.counts (fold_left (scan_step img cx cy) ps b))
     = length (Physics.counts b).
Proof.
  revert b. induction ps as [|p ps IH]; intros b; [split; reflexivity |].
  cbn [fold_left]. destruct (IH (scan_step img cx cy b p)) as [H1 H2].
  destruct (profile_pixel_lengths img (real_pt cx cy) (snd p) b (fst p)) as [H3 H4].
  unfold scan_step in *. split; congruence.
Qed.

Lemma accumulate_fold_bins ps :
  real_intensities img ps ->
  forall b k s,
    Physics.bins b !! k = Some (Fin s) ->
    Physics.bins (fold_left (scan_step img cx cy) ps b) !! k
    = Some (Fin (s + Rsum (map (fun p => intensity_at img (fst p) (snd p))
                               (List.filter (fun p => bin_of cx cy p =? k)%nat ps)))).
Proof.
  induction 1 as [|p ps Hp _ IH]; intros b k s Hk.
  - cbn. now rewrite Rplus_0_r.
  - cbn [fold_left List.filter].
    pose proof (profile_pixel_bins img cx cy p b k Hp) as Hstep.
    fold (scan_step img cx cy b p) in Hstep.
    destruct (bin_of cx cy p =? k)%nat.
    + rewrite Hk in Hstep. cbn in Hstep.
      rewrite (IH _ _ _ Hstep). cbn [map Rsum fold_right]. unfold Rsum.
      do 2 f_equal. ring.
    + rewrite Hk in Hstep. now rewrite (IH _ _ _ Hstep).
Qed.

Lemma accumulate_fold_counts ps :
  real_intensities img ps ->
  forall b k c,
    length (Physics.counts b) = length (Physics.bins b) ->
    Physics.counts b !! k = Some c ->
    Physics.counts (fold_left (scan_step img cx cy) ps b) !! k
    = Some (c + length (List.filter (fun p => bin_of cx cy p =? k)%nat ps))%nat.
Proof.
  induction 1 as [|p ps Hp _ IH]; intros b k c Hlen Hk.
  - cbn. now rewrite Nat.add_0_r.
  - cbn [fold_left List.filter].
    pose proof (profile_pixel_counts img cx cy p b k Hp Hlen) as Hstep.
    fold (scan_step img cx cy b p) in Hstep.
    destruct (profile_pixel_lengths img (real_pt cx cy) (snd p) b (fst p)) as [H3 H4].
    fold (scan_step img cx cy b p) in H3, H4.
    assert (Hlen' : length (Physics.counts (scan_step img cx cy b p))
                    = length (Physics.bins (scan_step img cx cy b p)))
      by congruence.
    destruct (bin_of cx cy p =? k)%nat.
    + rewrite Hk in Hstep. cbn in Hstep.
      rewrite (IH _ _ _ Hlen' Hstep). cbn [length]. f_equal. lia.
    + rewrite Hk in Hstep. now rewrite (IH _ _ _ Hlen' Hstep).
Qed.

End Accumulation.

Lemma maxRadius_real img : Physics.maxRadius img = Fin (max_radius img).
Proof.
  unfold Physics.maxRadius, max_radius, of_nat. cbn [mul add].
  rewrite sqrt_fin by (apply Rplus_le_le_0_compat; apply Rle_0_sqr).
  now rewrite div_fin by lra.
Qed.

Lemma bin_count_real img : Physics.bin_count img = bin_total img.
Proof.
  unfold Physics.bin_count, bin_total. rewrite maxRadius_real.
  cbn [ceil Physics.array_length]. now rewrite Rfloor_IZR.
Qed.

Lemma accumulate_real img cx cy :
  wf_image img ->
  let b := Physics.accumulate img (real_pt cx cy) in
  length (Physics.bins b) = bin_total img
  /\ length (Physics.counts b) = bin_total img
  /\ forall k, (k < bin_total img)%nat ->
       Physics.bins b !! k = Some (Fin (bin_sum img cx cy k))
       /\ Physics.counts b !! k = Some (bin_size img cx cy k).
Proof.
  intros Hwf b. subst b. unfold Physics.accumulate, Physics.profile_row.
  rewrite (nested_loops (Physics.profile_pixel img (real_pt cx cy))).
  fold (pixels img). rewrite bin_count_real.
  change (fun (a : Physics.Bins) (p : nat * nat) =>
            Physics.profile_pixel img (real_pt cx cy) (snd p) a (fst p))
    with (scan_step img cx cy).
  set (b0 := {| Physics.bins := replicate (bin_total img) (Fin 0);
                Physics.counts := replicate (bin_total img) 0%nat |}).
  destruct (accumulate_fold_lengths img cx cy (pixels img) b0) as [H1 H2].
  assert (Hb : length (Physics.bins b0) = bin_total img) by apply length_replicate.
  assert (Hc : length (Physics.counts b0) = bin_total img) by apply length_replicate.
  rewrite Hb in H1. rewrite Hc in H2.
  split; [exact H1 | split; [exact H2 |]].
  intros k Hk. split.
  - rewrite (accumulate_fold_bins img cx cy (pixels img) (pixels_real img Hwf) b0 k 0).
    + unfold bin_sum, bin_members. now rewrite Rplus_0_l.
    + unfold b0. cbn [Physics.bins]. now apply lookup_replicate_2.
  - rewrite (accumulate_fold_counts img cx cy (pixels img) (pixels_real img Hwf) b0 k 0%nat).
    + reflexivity.
    + unfold b0. cbn [Physics.bins Physics.counts]. now rewrite !length_replicate.
    + unfold b0. cbn [Physics.counts]. now apply lookup_replicate_2.
Qed.

(** C7 (amended). [calculateRadialProfile] allocates
    [ceil(sqrt(width² + height²)/2)] bins; for every real centroid position
    and every bin index [k] below that number, bin [k] receives the sum of
    the intensities [I = 255 − (R+G+B)/3] (no threshold) of exactly the
    samples whose Euclidean pixel distance [r] from the centroid has
    [floor(r) = k], and the count of bin [k] is the number of those
    samples.  Samples with [floor(r)] at or beyond the number of bins are in
    no bin. *)
Theorem C7_radial_accumulation (img : ImageData) (cx cy : R) :
  wf_image img ->
  let b := Physics.accumulate img (real_pt cx cy) in
  let n := Z.to_nat (Rceil (R_sqrt.sqrt (INR (width img) * INR (width img)
                                         + INR (height img) * INR (height img)) / 2)) in
  length (Physics.bins b) = n
  /\ length (Physics.counts b) = n
  /\ forall k, (k < n)%nat ->
       Physics.bins b !! k
       = Some (Fin (Rsum (map (fun p => intensity_at img (fst p) (snd p))
                              (List.filter (fun p => bin_of cx cy p =? k)%nat
                                           (pixels img)))))
       /\ Physics.counts b !! k
          = Some (length (List.filter (fun p => bin_of cx cy p =? k)%nat (pixels img))).
Proof.
  intros Hwf. exact (accumulate_real img cx cy Hwf).
Qed.

(** ** calculateRadialProfile: emission *)

Lemma emit_bin_app s b acc i :
  Physics.emit_bin s b acc i = acc ++ Physics.emit_bin s b [] i.
Proof.
  unfold Physics.emit_bin.
  destruct (Physics.bins b !! i) as [sum|], (Physics.counts b !! i) as [c|];
    try (now rewrite app_nil_r).
  destruct (0 <? c)%nat; [reflexivity | now rewrite app_nil_r].
Qed.

Lemma emit_fold s b ks acc :
  fold_left (Physics.emit_bin s b) ks acc
  = acc ++ flat_map (Physics.emit_bin s b []) ks.
Proof.
  revert acc. induction ks as [|k ks IH]; intros acc; cbn [fold_left flat_map].
  - now rewrite app_nil_r.
  - rewrite IH, (emit_bin_app s b acc k). now rewrite <- app_assoc.
Qed.

Lemma flat_map_ext_In {A B} (f g : A -> list B) l :
  (forall a, In a l -> f a = g a) -> flat_map f l = flat_map g l.
Proof.
  induction l as [|a l IH]; intros H; [reflexivity |].
  cbn [flat_map]. rewrite (H a) by now left.
  rewrite IH; [reflexivity |]. intros b Hb. apply H. now right.
Qed.

Lemma flat_map_filter_map {A B} (f : A -> bool) (g : A -> B) l :
  flat_map (fun a => if f a then [g a] else []) l = map g (List.filter f l).
Proof.
  induction l as [|a l IH]; [reflexivity |].
  cbn [flat_map List.filter]. destruct (f a); cbn [app map]; now rewrite IH.
Qed.

Lemma calculateRadialProfile_real img cx cy s :
  wf_image img ->
  Physics.calculateRadialProfile img (real_pt cx cy) (Fin s)
  = real_profile (profile_of_bins img cx cy s).
Proof.
  intros Hwf. unfold Physics.calculateRadialProfile, Physics.emit.
  destruct (accumulate_real img cx cy Hwf) as (Hlen & _ & Hbins).
  set (b := Physics.accumulate img (real_pt cx cy)) in *.
  rewrite emit_fold, Hlen. cbn [app].
  rewrite (flat_map_ext_In _
             (fun k => if (0 <? bin_size img cx cy k)%nat
                       then [real_point (INR k * s,
                                         bin_sum img cx cy k / INR (bin_size img cx cy k))]
                       else [])).
  - rewrite flat_map_filter_map. unfold real_profile, profile_of_bins.
    now rewrite map_map.
  - intros k Hk. apply in_seq in Hk. destruct (Hbins k) as [Hb Hc]; [lia |].
    unfold Physics.emit_bin. rewrite Hb, Hc.
    destruct (Nat.ltb_spec 0 (bin_size img cx cy k)) as [Hpos | Hz]; [| reflexivity].
    cbn [app]. unfold of_nat, real_point. cbn [mul fst snd].
    rewrite div_fin; [reflexivity |].
    apply not_0_INR. lia.
Qed.

Lemma seq_increasing a n : StronglySorted Nat.lt (seq a n).
Proof.
  revert a. induction n as [|n IH]; intros a; cbn [seq]; constructor; [apply IH |].
  apply List.Forall_forall. intros k Hk. apply in_seq in Hk. lia.
Qed.

Lemma scaled_indices_sorted s ks :
  0 <= s -> StronglySorted Nat.lt ks ->
  StronglySorted Rle (map (fun k => INR k * s) ks).
Proof.
  intros Hs. induction 1 as [|k ks Hsorted IH Hall]; cbn [map]; constructor;
    [exact IH |].
  apply Forall_map. eapply List.Forall_impl; [| exact Hall].
  intros j Hj. simpl. apply Rmult_le_compat_r; [assumption |].
  apply le_INR. unfold Nat.lt in Hj. lia.
Qed.

Lemma profile_radii img cx cy s :
  map fst (profile_of_bins img cx cy s)
  = map (fun k => INR k * s)
        (List.filter (fun k => (0 <? bin_size img cx cy k)%nat) (seq 0 (bin_total img))).
Proof. unfold profile_of_bins. now rewrite map_map. Qed.

Lemma profile_radii_sorted img cx cy s :
  0 <= s -> StronglySorted Rle (map fst (profile_of_bins img cx cy s)).
Proof.
  intros Hs. rewrite profile_radii. apply scaled_indices_sorted; [assumption |].
  apply StronglySorted_filter_bool, seq_increasing.
Qed.

Lemma index_below_max_radius img k : (k < bin_total img)%nat -> INR k < max_radius img.
Proof.
  unfold bin_total. intros Hk.
  destruct (Rceil_spec (max_radius img)) as [Hc _].
  assert (Hz : (0 < Rceil (max_radius img))%Z) by lia.
  assert (Hn : INR (S k) <= INR (Z.to_nat (Rceil (max_radius img))))
    by (apply le_INR; lia).
  rewrite INR_Z_to_nat in Hn by lia. rewrite S_INR in Hn. lra.
Qed.

Lemma profile_radii_bounded img cx cy s :
  0 < s ->
  Forall (fun r => r <= s * max_radius img) (map fst (profile_of_bins img cx cy s)).
Proof.
  intros Hs. rewrite profile_radii. apply Forall_map, List.Forall_forall.
  intros k Hk. apply filter_In in Hk. destruct Hk as [Hk _].
  apply in_seq in Hk. simpl.
  assert (INR k < max_radius img) by (apply index_below_max_radius; lia).
  nra.
Qed.

(** C8 (amended). The output of [calculateRadialProfile] holds exactly one
    point per non-empty bin, in increasing bin order, with
    [radius = binIndex × scale] and [intensity = binSum / binCount]; empty
    bins are skipped; for a non-negative scale the emitted radii are
    non-decreasing in output order; for a positive scale no emitted radius
    exceeds [scale × sqrt(width² + height²)/2]. *)
Theorem C8_radial_profile (img : ImageData) (cx cy s : R) :
  wf_image img ->
  let nonempty := List.filter (fun k => (0 <? bin_size img cx cy k)%nat)
                              (seq 0 (bin_total img)) in
  let out := map (fun k => (INR k * s, bin_sum img cx cy k / INR (bin_size img cx cy k)))
                 nonempty in
  Physics.calculateRadialProfile img (real_pt cx cy) (Fin s) = real_profile out
  /\ (0 <= s -> StronglySorted Rle (map fst out))
  /\ (0 < s ->
      Forall (fun r => r <= s * (R_sqrt.sqrt (INR (width img) * INR (width img)
                                              + INR (height img) * INR (height img)) / 2))
             (map fst out)).
Proof.
  intros Hwf nonempty out. split; [| split].
  - now apply calculateRadialProfile_real.
  - intros Hs. now apply profile_radii_sorted.
  - intros Hs. now apply profile_radii_bounded.
Qed.

(** ** The sample grids *)

Ltac eval_intensity :=
  unfold intensity_at, channel_real; cbn; lra.

Lemma black_pixel_uniform : uniform_grid black_pixel 255.
Proof.
  intros x y Hx Hy. cbn [width height black_pixel] in Hx, Hy.
  assert (x = 0%nat) as -> by lia. assert (y = 0%nat) as -> by lia. eval_intensity.
Qed.

Lemma black_pair_uniform : uniform_grid black_pair 255.
Proof.
  intros x y Hx Hy. cbn [width height black_pair] in Hx, Hy.
  assert (y = 0%nat) as -> by lia.
  destruct x as [|[|x]]; [eval_intensity | eval_intensity | lia].
Qed.

Lemma white_pair_uniform : uniform_grid white_pair 0.
Proof.
  intros x y Hx Hy. cbn [width height white_pair] in Hx, Hy.
  assert (y = 0%nat) as -> by lia.
  destruct x as [|[|x]]; [eval_intensity | eval_intensity | lia].
Qed.

Lemma white_pair_mass : total_mass white_pair = 0.
Proof.
  unfold total_mass.
  rewrite (Rsum_ext_In _ (fun _ => 0) _
             (uniform_mass_below white_pair 0 white_pair_uniform ltac:(lra))).
  rewrite Rsum_const. ring.
Qed.

Lemma black_pair_mass : total_mass black_pair <> 0.
Proof.
  unfold total_mass.
  rewrite (Rsum_ext_In _ (fun _ => 255) _
             (uniform_mass_above black_pair 255 black_pair_uniform ltac:(lra))).
  rewrite Rsum_const. cbn. lra.
Qed.

Lemma C6_uniform_centroid_witness :
  Physics.calculateCentroid white_pair = real_pt (INR 2 / 2) (INR 1 / 2)
  /\ Physics.calculateCentroid black_pair = real_pt ((INR 2 - 1) / 2) ((INR 1 - 1) / 2).
Proof.
  split.
  - apply (C6_uniform_centroid white_pair 0); try reflexivity.
    + exact white_pair_uniform.
    + cbn; lia.
    + lra.
  - apply (C6_uniform_centroid black_pair 255); try reflexivity.
    + exact black_pair_uniform.
    + cbn; lia.
    + lra.
Defined.

(** C6 as stated fails above the threshold: the single black pixel is a
    uniform grid (intensity 255), its centroid is the pixel index [(0, 0)],
    not [(width/2, height/2) = (1/2, 1/2)]. *)
Lemma C6_counterexample :
  wf_image black_pixel /\ uniform_grid black_pixel 255
  /\ Physics.calculateCentroid black_pixel = real_pt 0 0
  /\ Physics.calculateCentroid black_pixel
     <> real_pt (INR (width black_pixel) / 2) (INR (height black_pixel) / 2).
Proof.
  assert (E : Physics.calculateCentroid black_pixel = real_pt 0 0).
  { rewrite (uniform_above_centroid black_pixel 255); try reflexivity.
    - unfold real_pt. cbn. f_equal; f_equal; lra.
    - exact black_pixel_uniform.
    - lra. }
  split; [reflexivity | split; [exact black_pixel_uniform | split; [exact E |]]].
  rewrite E. unfold real_pt. cbn. intros H. injection H. lra.
Qed.

Lemma C9_centroid_zero_mass_witness :
  Physics.calculateCentroid white_pair = real_pt (INR 2 / 2) (INR 1 / 2)
  /\ 0 < total_mass black_pair.
Proof.
  split.
  - apply (proj1 C9_centroid_zero_mass white_pair); [reflexivity | exact white_pair_mass].
  - apply (proj2 (proj2 C9_centroid_zero_mass black_pair eq_refl) black_pair_mass).
Defined.

Lemma C10_centroid_in_bounds_witness :
  exists cx cy,
    Physics.calculateCentroid black_pair = real_pt cx cy
    /\ 0 <= cx <= INR 2 /\ 0 <= cy <= INR 1
    /\ (total_mass black_pair <> 0 -> cx <= INR 2 - 1 /\ cy <= INR 1 - 1).
Proof.
  apply (C10_centroid_in_bounds black_pair); [reflexivity | cbn; lia | cbn; lia].
Defined.

(** The row whose first pixel alone is dark: centroid at the origin, three
    bins, the fourth pixel beyond the last bin. *)
Lemma dark_corner_row_intensity x :
  (x < 4)%nat ->
  intensity_at dark_corner_row x 0 = if (x =? 0)%nat then 255 else 0.
Proof.
  intros Hx. destruct x as [|[|[|[|x]]]]; [eval_intensity .. | lia].
Qed.

Lemma dark_corner_row_centroid : Physics.calculateCentroid dark_corner_row = real_pt 0 0.
Proof.
  rewrite calculateCentroid_real by reflexivity.
  assert (Hm : forall x, (x < 4)%nat ->
                 mass_at dark_corner_row (x, 0%nat) = if (x =? 0)%nat then 255 else 0).
  { intros x Hx. unfold mass_at. cbn [fst snd].
    rewrite dark_corner_row_intensity by assumption.
    destruct (x =? 0)%nat; rcmp; reflexivity. }
  assert (Ht : total_mass dark_corner_row = 255).
  { unfold total_mass. cbn [pixels dark_corner_row width height seq flat_map map app].
    rewrite !Hm by lia. cbn. lra. }
  assert (Hx : moment_x dark_corner_row = 0).
  { unfold moment_x. cbn [pixels dark_corner_row width height seq flat_map map app].
    rewrite !Hm by lia. cbn. lra. }
  assert (Hy : moment_y dark_corner_row = 0).
  { unfold moment_y. cbn [pixels dark_corner_row width height seq flat_map map app].
    rewrite !Hm by lia. cbn. lra. }
  rewrite Ht, Hx, Hy. destruct (Req_dec_T 255 0); [lra |].
  unfold real_pt. f_equal; f_equal; lra.
Qed.

Lemma bin_on_axis x : bin_of 0 0 (x, 0%nat) = x.
Proof.
  unfold bin_of, radius_at. cbn [fst snd INR].
  replace ((INR x - 0) * (INR x - 0) + (0 - 0) * (0 - 0)) with (INR x * INR x) by ring.
  rewrite sqrt_square by apply pos_INR.
  rewrite INR_IZR_INZ, Rfloor_IZR. apply Nat2Z.id.
Qed.

Lemma dark_corner_row_bin_total : bin_total dark_corner_row = 3%nat.
Proof.
  unfold bin_total, max_radius. cbn [width height dark_corner_row].
  rewrite (Rceil_unique _ 3); [reflexivity |].
  replace (INR 4 * INR 4 + INR 1 * INR 1) with 17 by (cbn; lra).
  assert (H4 : R_sqrt.sqrt (4 * 4) = 4) by (apply sqrt_square; lra).
  assert (H6 : R_sqrt.sqrt (6 * 6) = 6) by (apply sqrt_square; lra).
  assert (Hlo : R_sqrt.sqrt (4 * 4) < R_sqrt.sqrt 17) by (apply sqrt_lt_1_alt; lra).
  assert (Hhi : R_sqrt.sqrt 17 < R_sqrt.sqrt (6 * 6)) by (apply sqrt_lt_1_alt; lra).
  lra.
Qed.

Lemma dark_corner_row_members k :
  bin_members dark_corner_row 0 0 k
  = List.filter (fun p => fst p =? k)%nat [(0, 0); (1, 0); (2, 0); (3, 0)]%nat.
Proof.
  unfold bin_members. cbn [pixels dark_corner_row width height seq flat_map map app].
  cbn [List.filter]. rewrite !bin_on_axis. reflexivity.
Qed.

Lemma dark_corner_row_counts :
  Physics.counts (Physics.accumulate dark_corner_row (real_pt 0 0)) = [1; 1; 1]%nat.
Proof.
  destruct (accumulate_real dark_corner_row 0 0 eq_refl) as (_ & Hlen & Hk).
  rewrite dark_corner_row_bin_total in Hlen, Hk.
  destruct (Hk 0%nat ltac:(lia)) as [_ H0].
  destruct (Hk 1%nat ltac:(lia)) as [_ H1].
  destruct (Hk 2%nat ltac:(lia)) as [_ H2].
  unfold bin_size in H0, H1, H2. rewrite dark_corner_row_members in H0, H1, H2.
  cbn in H0, H1, H2.
  destruct (Physics.counts _) as [|a [|b [|c [|d l]]]]; try discriminate Hlen.
  cbn in H0, H1, H2. congruence.
Qed.

(** C7 as stated fails for the sample [(3, 0)] of this grid, with the
    centroid the code itself computes: its distance is 3, there are only
    the bins 0, 1 and 2, and the sample is counted nowhere. *)
Lemma C7_counterexample :
  let b := Physics.accumulate dark_corner_row (real_pt 0 0) in
  Physics.calculateCentroid dark_corner_row = real_pt 0 0
  /\ In (3, 0)%nat (pixels dark_corner_row)
  /\ bin_of 0 0 (3, 0)%nat = 3%nat
  /\ length (Physics.bins b) = 3%nat
  /\ Physics.bins b !! 3%nat = None
  /\ Physics.counts b = [1; 1; 1]%nat.
Proof.
  cbv zeta.
  destruct (accumulate_real dark_corner_row 0 0 eq_refl) as (Hlen & _ & _).
  rewrite dark_corner_row_bin_total in Hlen.
  repeat split.
  - exact dark_corner_row_centroid.
  - cbn. tauto.
  - apply bin_on_axis.
  - exact Hlen.
  - apply lookup_ge_None_2. lia.
  - exact dark_corner_row_counts.
Qed.

Lemma C7_radial_accumulation_witness :
  length (Physics.bins (Physics.accumulate dark_corner_row (real_pt 0 0)))
  = Z.to_nat (Rceil (R_sqrt.sqrt (INR 4 * INR 4 + INR 1 * INR 1) / 2)).
Proof.
  apply (C7_radial_accumulation dark_corner_row 0 0). reflexivity.
Defined.

Lemma dark_corner_row_radii s :
  map radius (Physics.calculateRadialProfile dark_corner_row (real_pt 0 0) (Fin s))
  = [Fin (0 * s); Fin (1 * s); Fin (2 * s)].
Proof.
  rewrite calculateRadialProfile_real by reflexivity.
  unfold real_profile, profile_of_bins. rewrite !map_map.
  rewrite dark_corner_row_bin_total. unfold bin_size.
  cbn [seq List.filter]. rewrite !dark_corner_row_members.
  cbn [List.filter fst Nat.eqb length Nat.ltb Nat.leb map real_point radius INR].
  repeat f_equal; lra.
Qed.

(** C8 as stated fails for a negative scale: with [pixelToMm = -1] the
    three emitted radii are 0, -1, -2, a decreasing sequence. *)
Lemma C8_counterexample :
  map radius (Physics.calculateRadialProfile dark_corner_row (real_pt 0 0) (Fin (-1)))
  = [Fin 0; Fin (-1); Fin (-2)]
  /\ le (Fin 0) (Fin (-1)) = false
  /\ ~ StronglySorted Rle [0; -1; -2].
Proof.
  split; [| split].
  - rewrite dark_corner_row_radii. repeat f_equal; lra.
  - simpl. apply Rleb_false. lra.
  - intros H. inversion H as [|a l _ Hall]; subst.
    inversion Hall as [|b l' Hb _]; subst. lra.
Qed.

Lemma C8_radial_profile_witness :
  Physics.calculateRadialProfile dark_corner_row (real_pt 0 0) (Fin 0.2)
  = real_profile (profile_of_bins dark_corner_row 0 0 0.2)
  /\ StronglySorted Rle (map fst (profile_of_bins dark_corner_row 0 0 0.2))
  /\ Forall (fun r => r <= 0.2 * max_radius dark_corner_row)
            (map fst (profile_of_bins dark_corner_row 0 0 0.2)).
Proof.
  split; [| split].
  - apply (proj1 (C8_radial_profile dark_corner_row 0 0 0.2 eq_refl)).
  - apply (proj1 (proj2 (C8_radial_profile dark_corner_row 0 0 0.2 eq_refl))). lra.
  - apply (proj2 (proj2 (C8_radial_profile dark_corner_row 0 0 0.2 eq_refl))). lra.
Defined.

(** * Beyond the claims *)

(** ** fitGaussian: evaluation on a real profile *)



(** ** fitGaussian: change of units, exposure, and exact data *)


(** The four regression sums of a list of pairs, and how they move under
    an affine change of either coordinate. *)
Lemma ols_affine (c d b : R) l :
  let l' := map (fun q : R * R => (c * fst q, b + d * snd q)) l in
  ols_num l' = c * d * ols_num l /\ ols_den l' = c * c * ols_den l.
Proof.
  cbv zeta. unfold ols_num, ols_den. rewrite !length_map, !map_map. cbn [fst snd].
  assert (H1 : Rsum (map (fun q : R * R => c * fst q) l) = c * Rsum (map fst l)).
  { induction l as [|q l IH]; cbn [map Rsum fold_right]; [ring |].
    unfold Rsum in IH. rewrite IH. ring. }
  assert (H2 : Rsum (map (fun q : R * R => b + d * snd q) l)
               = INR (length l) * b + d * Rsum (map snd l)).
  { clear H1. induction l as [|q l IH]; cbn [map Rsum fold_right length]; [cbn; ring |].
    rewrite S_INR. unfold Rsum in IH. rewrite IH. ring. }
  assert (H3 : Rsum (map (fun q : R * R => c * fst q * (b + d * snd q)) l)
               = c * b * Rsum (map fst l)
                 + c * d * Rsum (map (fun q => fst q * snd q) l)).
  { clear H1 H2. induction l as [|q l IH]; cbn [map Rsum fold_right]; [ring |].
    unfold Rsum in IH. rewrite IH. ring. }
  assert (H4 : Rsum (map (fun q : R * R => c * fst q * (c * fst q)) l)
               = c * c * Rsum (map (fun q => fst q * fst q) l)).
  { clear H1 H2 H3. induction l as [|q l IH]; cbn [map Rsum fold_right]; [ring |].
    unfold Rsum in IH. rewrite IH. ring. }
  rewrite H1, H2, H3, H4. split; ring.
Qed.











(** The denominator of the slope is positive as soon as two windowed
    points have different abscissae. *)
Lemma ols_den_increasing l :
  StronglySorted (fun p q : R * R => fst p < fst q) l ->
  (2 <= length l)%nat -> 0 < ols_den l.
Proof.
  intros Hs Hlen. destruct Hs as [|[x y] l Hs Hall]; [simpl in Hlen; lia |].
  rewrite ols_den_cons. pose proof (ols_den_nonneg l).
  assert (0 < Rsum (map (fun q : R * R => (fst q - x) * (fst q - x)) l)).
  { apply Rsum_positive.
    - destruct l; [simpl in Hlen; lia | discriminate].
    - eapply List.Forall_impl; [| exact Hall].
      intros q H1. simpl in *. nra. }
  lra.
Qed.

Lemma StronglySorted_map_In {A B} (RA : A -> A -> Prop) (RB : B -> B -> Prop)
  (f : A -> B) l :
  (forall a b, In a l -> In b l -> RA a b -> RB (f a) (f b)) ->
  StronglySorted RA l -> StronglySorted RB (map f l).
Proof.
  intros Hf Hs. induction Hs as [|a l Hs IH Hall]; cbn [map]; constructor.
  - apply IH. intros x y Hx Hy. apply Hf; now right.
  - apply Forall_map. rewrite List.Forall_forall in *. intros b Hb.
    apply Hf; [now left | now right | now apply Hall].
Qed.

Lemma window_abscissae_increasing pts :
  radii_increasing pts ->
  StronglySorted (fun p q : R * R => fst p < fst q) (map linearized (fit_window pts)).
Proof.
  intros Hr.
  apply (StronglySorted_map_In (fun p q : R * R => fst p < fst q)).
  - intros a b Ha Hb Hab. apply fit_window_In in Ha, Hb.
    unfold linearized. cbn [fst]. nra.
  - unfold fit_window. now apply StronglySorted_filter_bool.
Qed.

(** X3. Whatever the profile holds ([NaN] and infinite entries included),
    [fitGaussian] never returns a negative number: the result is [NaN], or
    it is [>= 0]. *)
Theorem fitGaussian_never_negative (profile : list RadialDataPoint) :
  lt (Physics.fitGaussian profile) (Fin 0) = false
  /\ (Physics.fitGaussian profile = NaN
      \/ ge (Physics.fitGaussian profile) (Fin 0) = true).
Proof.
  destruct (fitGaussian_range profile) as [-> | (r & Hr & ->)].
  - split; [reflexivity | now left].
  - cbn [lt ge le]. split; [apply Rltb_false; lra | right; now apply Rleb_true].
Qed.

Lemma ols_linear c m l :
  Forall (fun q : R * R => snd q = c + m * fst q) l -> ols_num l = m * ols_den l.
Proof.
  intros H.
  assert (E : l = map (fun q : R * R => (1 * fst q, c + m * snd q))
                      (map (fun q => (fst q, fst q)) l)).
  { rewrite map_map. cbn [fst snd]. induction H as [|[x y] l Hq _ IH]; [reflexivity |].
    cbn [map fst snd] in *. rewrite <- IH. f_equal. f_equal; [ring | now symmetry]. }
  rewrite E at 1.
  destruct (ols_affine 1 m c (map (fun q : R * R => (fst q, fst q)) l)) as [Hn _].
  rewrite Hn. unfold ols_num, ols_den. rewrite !length_map, !map_map. cbn [fst snd].
  change (fun x : R * R => fst x) with (@fst R R). ring.
Qed.

(** X4. Exact data are fitted exactly: if every point of a profile with
    strictly increasing radii lies on the Gaussian [A·exp(-r²/(2σ²))] and at
    least 5 points fall in the fit window, [fitGaussian] returns [σ]. *)
Theorem fitGaussian_recovers_sigma (pts : list (R * R)) (A sigma : R) :
  0 < A -> 0 < sigma ->
  radii_increasing pts ->
  Forall (fun p => snd p = gaussian A sigma (fst p)) pts ->
  (5 <= length (fit_window pts))%nat ->
  Physics.fitGaussian (real_profile pts) = Fin sigma.
Proof.
  intros HA Hs Hr Hg Hlen.
  set (lw := map linearized (fit_window pts)).
  assert (Hden : 0 < ols_den lw).
  { apply ols_den_increasing; [now apply window_abscissae_increasing |].
    unfold lw. rewrite length_map. lia. }
  assert (Hss : 0 < 2 * sigma * sigma) by nra.
  assert (Hlin : ols_num lw = - / (2 * sigma * sigma) * ols_den lw).
  { apply (ols_linear (ln A)). unfold lw. apply Forall_map, List.Forall_forall.
    intros p Hp. apply fit_window_In in Hp. destruct Hp as (Hin & _ & _).
    rewrite List.Forall_forall in Hg. specialize (Hg p Hin).
    unfold linearized. cbn [fst snd]. rewrite Hg. unfold gaussian.
    rewrite ln_mult by (try assumption; apply exp_pos). rewrite ln_exp.
    unfold Rdiv. ring. }
  rewrite fitGaussian_fit by (try assumption; fold lw; lra).
  assert (Hm : window_slope pts = - / (2 * sigma * sigma)).
  { unfold window_slope, ols_slope. fold lw. rewrite Hlin. field. lra. }
  rewrite Hm. assert (0 < / (2 * sigma * sigma)) by now apply Rinv_0_lt_compat.
  destruct (Rle_dec 0 (- / (2 * sigma * sigma))); [lra |].
  f_equal. replace (-1 / (2 * - / (2 * sigma * sigma))) with (sigma * sigma)
    by (field; lra).
  apply sqrt_square. lra.
Qed.

Lemma gaussian_core A sigma r :
  0 < A -> 0 < sigma ->
  0.06 <= r * r / (2 * sigma * sigma) <= 1 ->
  0.30 * A < gaussian A sigma r < 0.95 * A.
Proof.
  intros HA Hs [Hlo Hhi]. unfold gaussian.
  replace (- (r * r) / (2 * sigma * sigma)) with (- (r * r / (2 * sigma * sigma)))
    by (field; lra).
  set (t := r * r / (2 * sigma * sigma)) in *.
  rewrite exp_Ropp.
  assert (H1 : 1 + t < Rtrigo_def.exp t) by (apply exp_ineq1; lra).
  assert (H2 : Rtrigo_def.exp t <= 3).
  { apply Rle_trans with (Rtrigo_def.exp 1); [| apply exp_le_3].
    destruct Hhi as [Hlt | ->]; [left; now apply exp_increasing | right; reflexivity]. }
  assert (H3 : 0 < Rtrigo_def.exp t) by apply exp_pos.
  assert (H4 : / 3 <= / Rtrigo_def.exp t) by (apply Rinv_le_contravar; lra).
  assert (H5 : / Rtrigo_def.exp t < / (1 + t)) by (apply Rinv_lt_contravar; nra).
  assert (H6 : / (1 + t) <= / 1.06) by (apply Rinv_le_contravar; lra).
  assert (H7 : / 1.06 < 0.95) by lra.
  split; nra.
Qed.

Lemma gaussian_peak A sigma : 0 < sigma -> gaussian A sigma 0 = A.
Proof.
  intros Hs. unfold gaussian.
  replace (- (0 * 0) / (2 * sigma * sigma)) with 0 by (field; lra).
  rewrite exp_0. ring.
Qed.

Lemma gaussian_samples_window : length (fit_window gaussian_samples) = 5%nat.
Proof.
  unfold fit_window, gaussian_samples, in_fit_window.
  cbn [map snd fst Rmaximum fold_left].
  rewrite gaussian_peak by lra.
  pose proof (gaussian_core 1 1 0.5 ltac:(lra) ltac:(lra) ltac:(lra)).
  pose proof (gaussian_core 1 1 0.75 ltac:(lra) ltac:(lra) ltac:(lra)).
  pose proof (gaussian_core 1 1 1 ltac:(lra) ltac:(lra) ltac:(lra)).
  pose proof (gaussian_core 1 1 1.25 ltac:(lra) ltac:(lra) ltac:(lra)).
  pose proof (gaussian_core 1 1 1.4 ltac:(lra) ltac:(lra) ltac:(lra)).
  rmax. cbn [List.filter fst snd]. rcmp. cbn [andb]. rcmp. reflexivity.
Qed.

Lemma fitGaussian_recovers_sigma_witness :
  Physics.fitGaussian (real_profile gaussian_samples) = Fin 1.
Proof.
  apply (fitGaussian_recovers_sigma gaussian_samples 1 1); try lra.
  - unfold radii_increasing, gaussian_samples. cbn [map].
    repeat (constructor; [| repeat (constructor; [cbn [fst]; lra |]); constructor]).
    constructor.
  - unfold gaussian_samples. apply Forall_map, List.Forall_forall.
    intros r _. reflexivity.
  - rewrite gaussian_samples_window. lia.
Defined.

(** ** The analysis pipeline of the film analyzer *)


Lemma profile_radii_increasing img cx cy s :
  0 < s -> radii_increasing (profile_of_bins img cx cy s).
Proof.
  intros Hs. unfold radii_increasing, profile_of_bins.
  apply (StronglySorted_map_In Nat.lt).
  - intros a b _ _ Hab. cbn [fst]. apply Rmult_lt_compat_r; [assumption |].
    now apply lt_INR.
  - apply StronglySorted_filter_bool, seq_increasing.
Qed.





(** ** calculateRadialProfile: range of the averages *)

Lemma channel_real_range d i : 0 <= channel_real d i <= 255.
Proof.
  unfold channel_real. pose proof (Byte.to_N_bounded (nth i d x00)) as H.
  split.
  - apply IZR_le. lia.
  - apply IZR_le. lia.
Qed.

Lemma intensity_at_range img x y : 0 <= intensity_at img x y <= 255.
Proof.
  unfold intensity_at.
  set (i := ((y * width img + x) * 4)%nat).
  pose proof (channel_real_range (data img) i).
  pose proof (channel_real_range (data img) (i + 1)).
  pose proof (channel_real_range (data img) (i + 2)).
  lra.
Qed.

Lemma Rsum_range {A} (f : A -> R) (lo hi : R) l :
  Forall (fun a => lo <= f a <= hi) l ->
  lo * INR (length l) <= Rsum (map f l) <= hi * INR (length l).
Proof.
  induction 1 as [|a l Ha _ IH]; cbn [map Rsum fold_right length].
  - cbn. lra.
  - rewrite S_INR. unfold Rsum in IH. lra.
Qed.

Lemma bin_average_range img cx cy k :
  (0 < bin_size img cx cy k)%nat ->
  0 <= bin_sum img cx cy k / INR (bin_size img cx cy k) <= 255.
Proof.
  intros Hk. unfold bin_sum, bin_size in *.
  set (ms := bin_members img cx cy k) in *.
  assert (Hn : 0 < INR (length ms)) by now apply lt_0_INR.
  assert (Hr : 0 * INR (length ms)
               <= Rsum (map (fun p => intensity_at img (fst p) (snd p)) ms)
               <= 255 * INR (length ms)).
  { apply Rsum_range, List.Forall_forall. intros p _. apply intensity_at_range. }
  apply quotient_bounds; lra.
Qed.

(** X6. Every intensity that [calculateRadialProfile] emits is a real
    number in [[0, 255]] (an average of inverted 8-bit brightnesses). *)
Theorem radial_profile_intensity_range (img : ImageData) (cx cy s : R) :
  wf_image img ->
  Forall (fun p => exists v, intensity p = Fin v /\ 0 <= v <= 255)
         (Physics.calculateRadialProfile img (real_pt cx cy) (Fin s)).
Proof.
  intros Hwf. rewrite calculateRadialProfile_real by assumption.
  unfold real_profile, profile_of_bins. rewrite map_map.
  apply Forall_map, List.Forall_forall. intros k Hk.
  apply filter_In in Hk. destruct Hk as [_ Hk]. apply Nat.ltb_lt in Hk.
  cbn [real_point intensity snd]. eexists. split; [reflexivity |].
  now apply bin_average_range.
Qed.

Lemma radial_profile_intensity_range_witness :
  Forall (fun p => exists v, intensity p = Fin v /\ 0 <= v <= 255)
         (Physics.calculateRadialProfile dark_corner_row (real_pt 0 0) (Fin 0.2)).
Proof. apply radial_profile_intensity_range. reflexivity. Defined.

(** ** calculateRadialProfile: which samples are counted *)

Lemma list_from_lookups (g : nat -> nat) (l : list nat) (a : nat) :
  (forall k, (k < length l)%nat -> l !! k = Some (g (a + k)%nat)) ->
  l = map g (seq a (length l)).
Proof.
  revert a. induction l as [|x l IH]; intros a H; [reflexivity |].
  cbn [length seq map]. f_equal.
  - specialize (H 0%nat ltac:(cbn; lia)). cbn in H. rewrite Nat.add_0_r in H. congruence.
  - apply IH. intros k Hk. specialize (H (S k) ltac:(cbn; lia)). cbn in H.
    now rewrite Nat.add_succ_r in H.
Qed.

Lemma list_sum_cons (a : nat) l : list_sum (a :: l) = (a + list_sum l)%nat.
Proof. reflexivity. Qed.

Lemma indicator_sum (x a n : nat) :
  list_sum (map (fun k => if (x =? k)%nat then 1 else 0)%nat (seq a n))
  = if ((a <=? x) && (x <? a + n))%nat then 1%nat else 0%nat.
Proof.
  revert a. induction n as [|n IH]; intros a; cbn [seq map].
  - destruct (Nat.leb_spec a x), (Nat.ltb_spec x (a + 0)); cbn; lia.
  - rewrite list_sum_cons, IH.
    destruct (Nat.eqb_spec x a), (Nat.leb_spec (S a) x), (Nat.ltb_spec x (S a + n)),
      (Nat.leb_spec a x), (Nat.ltb_spec x (a + S n)); cbn; lia.
Qed.

Lemma list_sum_plus {A} (f g : A -> nat) l :
  list_sum (map (fun a => f a + g a)%nat l)
  = (list_sum (map f l) + list_sum (map g l))%nat.
Proof.
  induction l as [|a l IH]; cbn [map]; [reflexivity |].
  rewrite !list_sum_cons. lia.
Qed.

(** The bins partition the samples whose bin index is below the bin count. *)
Lemma bins_partition {A} (bin : A -> nat) (n : nat) ps :
  list_sum (map (fun k => length (List.filter (fun p => bin p =? k)%nat ps)) (seq 0 n))
  = length (List.filter (fun p => bin p <? n)%nat ps).
Proof.
  induction ps as [|p ps IH].
  - cbn [List.filter length].
    induction (seq 0 n) as [|k ks IHk]; cbn [map]; [reflexivity |].
    now rewrite list_sum_cons, IHk.
  - cbn [List.filter].
    rewrite (map_ext _ (fun k => (if (bin p =? k)%nat then 1 else 0)
                                 + length (List.filter (fun q => bin q =? k)%nat ps))%nat)
      by (intros k; destruct (bin p =? k)%nat; reflexivity).
    rewrite list_sum_plus, IH, indicator_sum. cbn [Nat.leb andb Nat.add].
    destruct (bin p <? n)%nat; cbn [length]; lia.
Qed.

Lemma accumulate_counts img cx cy :
  wf_image img ->
  Physics.counts (Physics.accumulate img (real_pt cx cy))
  = map (bin_size img cx cy) (seq 0 (bin_total img)).
Proof.
  intros Hwf. destruct (accumulate_real img cx cy Hwf) as (_ & Hlen & Hk).
  rewrite <- Hlen. apply list_from_lookups. intros k Hlt.
  rewrite Hlen in Hlt. now destruct (Hk k Hlt).
Qed.

(** X7. No sample is counted twice, and the samples counted are exactly
    those whose bin index [floor(r)] is below the number of bins: the per-bin
    counts add up to their number. *)
Theorem radial_counts_total (img : ImageData) (cx cy : R) :
  wf_image img ->
  list_sum (Physics.counts (Physics.accumulate img (real_pt cx cy)))
  = length (List.filter (fun p => bin_of cx cy p <? bin_total img)%nat (pixels img)).
Proof.
  intros Hwf. rewrite accumulate_counts by assumption.
  unfold bin_size, bin_members. apply bins_partition.
Qed.

Lemma radial_counts_total_witness :
  list_sum (Physics.counts (Physics.accumulate dark_corner_row (real_pt 0 0)))
  = length (List.filter (fun p => bin_of 0 0 p <? bin_total dark_corner_row)%nat
                        (pixels dark_corner_row)).
Proof. apply radial_counts_total. reflexivity. Defined.

Lemma pixels_length img : length (pixels img) = (height img * width img)%nat.
Proof.
  unfold pixels.
  assert (G : forall xs ys : list nat,
             length (flat_map (fun y => map (fun x => (x, y)) xs) ys)
             = (length ys * length xs)%nat).
  { intros xs ys. induction ys as [|y ys IH]; [reflexivity |].
    cbn [flat_map length]. rewrite length_app, length_map, IH. lia. }
  now rewrite G, !length_seq.
Qed.

Lemma centred_bin_in_range img p :
  (1 <= width img)%nat -> (1 <= height img)%nat -> In p (pixels img) ->
  (bin_of ((INR (width img) - 1) / 2) ((INR (height img) - 1) / 2) p
   < bin_total img)%nat.
Proof.
  intros Hw Hh Hp. apply pixels_In in Hp. destruct Hp as [Hx Hy].
  set (W := INR (width img)). set (H := INR (height img)).
  assert (HW : 1 <= W) by (change 1 with (INR 1); now apply le_INR).
  assert (HH : 1 <= H) by (change 1 with (INR 1); now apply le_INR).
  assert (Hx0 : 0 <= INR (fst p)) by apply pos_INR.
  assert (Hy0 : 0 <= INR (snd p)) by apply pos_INR.
  assert (Hx1 : INR (fst p) + 1 <= W) by (rewrite <- S_INR; apply le_INR; lia).
  assert (Hy1 : INR (snd p) + 1 <= H) by (rewrite <- S_INR; apply le_INR; lia).
  set (r := radius_at ((W - 1) / 2) ((H - 1) / 2) p).
  assert (Hm : 0 <= max_radius img).
  { unfold max_radius. pose proof (sqrt_pos (W * W + H * H)). fold W H. lra. }
  assert (Hr : r < max_radius img).
  { rewrite <- (sqrt_square (max_radius img)) by assumption.
    unfold r, radius_at. apply sqrt_lt_1_alt. split.
    - apply Rplus_le_le_0_compat; apply Rle_0_sqr.
    - unfold max_radius. fold W H.
      replace (R_sqrt.sqrt (W * W + H * H) / 2 * (R_sqrt.sqrt (W * W + H * H) / 2))
        with (R_sqrt.sqrt (W * W + H * H) * R_sqrt.sqrt (W * W + H * H) / 4) by field.
      rewrite sqrt_sqrt by nra. nra. }
  unfold bin_of, bin_total. fold W H r.
  destruct (Rfloor_spec r) as [Hf _].
  destruct (Rceil_spec (max_radius img)) as [_ Hc].
  assert (Hlt : (Rfloor r < Rceil (max_radius img))%Z) by (apply lt_IZR; lra).
  assert (H0 : (0 <= Rfloor r)%Z) by (apply Rfloor_nonneg, radius_at_nonneg).
  lia.
Qed.

(** X8. With the centroid at the mean pixel index
    [((width − 1)/2, (height − 1)/2)] no sample falls beyond the last bin:
    the counts add up to [width × height]. *)
Theorem radial_centred_counts_all (img : ImageData) :
  wf_image img -> (1 <= width img)%nat -> (1 <= height img)%nat ->
  list_sum (Physics.counts
              (Physics.accumulate img (real_pt ((INR (width img) - 1) / 2)
                                               ((INR (height img) - 1) / 2))))
  = (height img * width img)%nat.
Proof.
  intros Hwf Hw Hh. rewrite accumulate_counts by assumption.
  unfold bin_size, bin_members. rewrite bins_partition.
  rewrite <- pixels_length. f_equal.
  rewrite (filter_ext_In _ (fun _ => true)).
  - induction (pixels img) as [|p ps IH]; [reflexivity |]. cbn [List.filter]. now f_equal.
  - intros p Hp. apply Nat.ltb_lt. now apply centred_bin_in_range.
Qed.

Lemma radial_centred_counts_all_witness :
  list_sum (Physics.counts
              (Physics.accumulate black_pair (real_pt ((INR 2 - 1) / 2) ((INR 1 - 1) / 2))))
  = (1 * 2)%nat.
Proof.
  apply (radial_centred_counts_all black_pair); [reflexivity | cbn; lia | cbn; lia].
Defined.

(** ** calculateCentroid: mirror-symmetric images *)

Lemma Rsum_rows (F : nat * nat -> R) (xs ys : list nat) :
  Rsum (map F (flat_map (fun y => map (fun x => (x, y)) xs) ys))
  = Rsum (map (fun y => Rsum (map (fun x => F (x, y)) xs)) ys).
Proof.
  induction ys as [|y ys IH]; [reflexivity |].
  cbn [flat_map map]. rewrite map_app, Rsum_app, IH, map_map.
  cbn [Rsum fold_right]. reflexivity.
Qed.

Lemma Rsum_rev l : Rsum (rev l) = Rsum l.
Proof.
  induction l as [|a l IH]; [reflexivity |].
  cbn [rev]. rewrite Rsum_app, IH. cbn [Rsum fold_right]. unfold Rsum. ring.
Qed.

Lemma seq_mirror n : map (fun x => n - 1 - x)%nat (seq 0 n) = rev (seq 0 n).
Proof.
  induction n as [|n IH]; [reflexivity |].
  rewrite seq_S at 2. rewrite rev_app_distr. cbn [rev app seq map Nat.add].
  f_equal; [lia |].
  rewrite <- IH, <- seq_shift, map_map. apply map_ext. intros x. lia.
Qed.

Lemma Rsum_mirror (f : nat -> R) n :
  Rsum (map f (seq 0 n)) = Rsum (map (fun x => f (n - 1 - x)%nat) (seq 0 n)).
Proof.
  rewrite <- (map_map (fun x => (n - 1 - x)%nat) f), seq_mirror, map_rev.
  now rewrite Rsum_rev.
Qed.

(** A weighted index sum over a weight that is symmetric under
    [x -> n − 1 − x] is [(n − 1)/2] times the total weight. *)
Lemma symmetric_moment (m : nat -> R) n :
  (forall x, (x < n)%nat -> m (n - 1 - x)%nat = m x) ->
  2 * Rsum (map (fun x => INR x * m x) (seq 0 n))
  = (INR n - 1) * Rsum (map m (seq 0 n)).
Proof.
  intros Hsym.
  assert (E : Rsum (map (fun x => INR x * m x) (seq 0 n))
              = Rsum (map (fun x => (INR n - 1 - INR x) * m x) (seq 0 n))).
  { rewrite (Rsum_mirror (fun x => INR x * m x)).
    apply Rsum_ext_In. intros x Hx. apply in_seq in Hx.
    rewrite Hsym by lia. rewrite !minus_INR by lia. cbn [INR]. ring. }
  assert (S : forall l : list nat,
             Rsum (map (fun x => INR x * m x) l)
             + Rsum (map (fun x => (INR n - 1 - INR x) * m x) l)
             = (INR n - 1) * Rsum (map m l)).
  { induction l as [|x l IH]; cbn [map Rsum fold_right]; [ring |].
    unfold Rsum in IH. nra. }
  specialize (S (seq 0 n)). lra.
Qed.

Lemma mass_at_ext img p q :
  intensity_at img (fst p) (snd p) = intensity_at img (fst q) (snd q) ->
  mass_at img p = mass_at img q.
Proof. intros H. unfold mass_at. now rewrite H. Qed.

Lemma Rsum_proportional {A} (f g : A -> R) (c : R) l :
  (forall a, In a l -> 2 * f a = c * g a) ->
  2 * Rsum (map f l) = c * Rsum (map g l).
Proof.
  induction l as [|a l IH]; intros H; cbn [map Rsum fold_right]; [ring |].
  assert (Ha := H a (or_introl eq_refl)).
  assert (Hl : 2 * Rsum (map f l) = c * Rsum (map g l))
    by (apply IH; intros b Hb; apply H; now right).
  unfold Rsum in Hl. lra.
Qed.

Lemma moment_x_mirror img :
  (forall x y, (x < width img)%nat -> (y < height img)%nat ->
               intensity_at img (width img - 1 - x) y = intensity_at img x y) ->
  2 * moment_x img = (INR (width img) - 1) * total_mass img.
Proof.
  intros Hsym. unfold moment_x, total_mass, pixels. rewrite !Rsum_rows.
  apply Rsum_proportional. intros y Hy. apply in_seq in Hy. cbn [fst].
  apply (symmetric_moment (fun x => mass_at img (x, y))).
  intros x Hx. apply mass_at_ext. cbn [fst snd]. apply Hsym; lia.
Qed.

Lemma Rsum_scal {A} (c : R) (f : A -> R) l :
  Rsum (map (fun a => c * f a) l) = c * Rsum (map f l).
Proof.
  induction l as [|a l IH]; cbn [map Rsum fold_right]; [ring |].
  unfold Rsum in IH. rewrite IH. ring.
Qed.

Lemma moment_y_mirror img :
  (forall x y, (x < width img)%nat -> (y < height img)%nat ->
               intensity_at img x (height img - 1 - y) = intensity_at img x y) ->
  2 * moment_y img = (INR (height img) - 1) * total_mass img.
Proof.
  intros Hsym. unfold moment_y, total_mass, pixels. rewrite !Rsum_rows. cbn [snd].
  rewrite (Rsum_ext_In
             (fun y => Rsum (map (fun x => INR y * mass_at img (x, y))
                                 (seq 0 (width img))))
             (fun y => INR y * (fun y' => Rsum (map (fun x => mass_at img (x, y'))
                                                   (seq 0 (width img)))) y))
    by (intros y _; apply Rsum_scal).
  apply (symmetric_moment
           (fun y => Rsum (map (fun x => mass_at img (x, y)) (seq 0 (width img))))).
  intros y Hy. apply Rsum_ext_In. intros x Hx. apply in_seq in Hx.
  apply mass_at_ext. cbn [fst snd]. apply Hsym; lia.
Qed.

(** X9. On an image that is mirror-symmetric left to right and carries
    some above-threshold mass, the centroid's x is exactly the mean column
    index [(width − 1)/2]; symmetric top to bottom, its y is [(height − 1)/2]. *)
Theorem centroid_mirror_symmetry (img : ImageData) :
  wf_image img -> total_mass img <> 0 ->
  ((forall x y, (x < width img)%nat -> (y < height img)%nat ->
                intensity_at img (width img - 1 - x) y = intensity_at img x y) ->
   pt_x (Physics.calculateCentroid img) = Fin ((INR (width img) - 1) / 2))
  /\ ((forall x y, (x < width img)%nat -> (y < height img)%nat ->
                   intensity_at img x (height img - 1 - y) = intensity_at img x y) ->
      pt_y (Physics.calculateCentroid img) = Fin ((INR (height img) - 1) / 2)).
Proof.
  intros Hwf Hm.
  destruct (calculateCentroid_cases img Hwf) as [[H0 _] | [Hpos E]]; [contradiction |].
  rewrite E. unfold real_pt. cbn [pt_x pt_y]. split; intros Hsym; f_equal.
  - pose proof (moment_x_mirror img Hsym). field_simplify_eq; lra.
  - pose proof (moment_y_mirror img Hsym). field_simplify_eq; lra.
Qed.

Lemma centroid_mirror_symmetry_witness :
  pt_x (Physics.calculateCentroid black_pair) = Fin ((INR 2 - 1) / 2)
  /\ pt_y (Physics.calculateCentroid black_pair) = Fin ((INR 1 - 1) / 2).
Proof.
  assert (U : forall x y, (x < 2)%nat -> (y < 1)%nat -> intensity_at black_pair x y = 255)
    by exact black_pair_uniform.
  split.
  - apply (proj1 (centroid_mirror_symmetry black_pair eq_refl black_pair_mass)).
    cbn [width height black_pair]. intros x y Hx Hy. rewrite !U by lia. reflexivity.
  - apply (proj2 (centroid_mirror_symmetry black_pair eq_refl black_pair_mass)).
    cbn [width height black_pair]. intros x y Hx Hy. rewrite !U by lia. reflexivity.
Defined.

(** ** calculateHighlandTheta: units, momentum, and the clamp *)

Lemma highland_real x X0 p b :
  Physics.calculateHighlandTheta (Fin x) (Fin X0) (Fin p) (Fin b)
  = if Rle_dec x 0 then Fin 0 else if Rle_dec X0 0 then Fin 0
    else if Rle_dec p 0 then Fin 0 else if Rle_dec b 0 then Fin 0
    else Fin (Rmax 0 (highland x X0 p b)).
Proof.
  destruct (Rle_dec x 0); [apply highland_guard; left; now apply Rleb_true |].
  destruct (Rle_dec X0 0);
    [apply highland_guard; right; left; now apply Rleb_true |].
  destruct (Rle_dec p 0);
    [apply highland_guard; right; right; left; now apply Rleb_true |].
  destruct (Rle_dec b 0);
    [apply highland_guard; right; right; right; now apply Rleb_true |].
  apply highland_positive; lra.
Qed.

(** X10. The theoretical angle depends on thickness and radiation length
    through their ratio only: expressing both in another length unit
    (both multiplied by [k > 0]) does not change the result. *)
Theorem highland_unit_invariant (x X0 p b k : R) :
  0 < k ->
  Physics.calculateHighlandTheta (Fin (k * x)) (Fin (k * X0)) (Fin p) (Fin b)
  = Physics.calculateHighlandTheta (Fin x) (Fin X0) (Fin p) (Fin b).
Proof.
  intros Hk. rewrite !highland_real.
  destruct (Rle_dec x 0), (Rle_dec (k * x) 0); try reflexivity; try nra.
  destruct (Rle_dec X0 0), (Rle_dec (k * X0) 0); try reflexivity; try nra.
  destruct (Rle_dec p 0); [reflexivity |]. destruct (Rle_dec b 0); [reflexivity |].
  do 2 f_equal. unfold highland.
  replace (k * x / (k * X0)) with (x / X0) by (field; lra). reflexivity.
Qed.

Lemma highland_unit_invariant_witness :
  Physics.calculateHighlandTheta (Fin (10 * 1)) (Fin (10 * 36.08)) (Fin 150) (Fin 0.5)
  = Physics.calculateHighlandTheta (Fin 1) (Fin 36.08) (Fin 150) (Fin 0.5).
Proof. apply highland_unit_invariant. lra. Defined.

(** X11. The theoretical angle is inversely proportional to the momentum:
    multiplying [p] by [k > 0] divides the result by [k] (for all real
    parameters, the guarded ones included). *)
Theorem highland_inverse_momentum (x X0 p b k : R) :
  0 < k ->
  exists v,
    Physics.calculateHighlandTheta (Fin x) (Fin X0) (Fin p) (Fin b) = Fin v
    /\ Physics.calculateHighlandTheta (Fin x) (Fin X0) (Fin (k * p)) (Fin b)
       = Fin (v / k).
Proof.
  intros Hk. rewrite !highland_real.
  assert (Z : Fin 0 = Fin (0 / k)) by (f_equal; field; lra).
  destruct (Rle_dec x 0); [exists 0; split; [reflexivity | exact Z] |].
  destruct (Rle_dec X0 0); [exists 0; split; [reflexivity | exact Z] |].
  destruct (Rle_dec p 0), (Rle_dec (k * p) 0); try nra;
    [exists 0; split; [reflexivity | exact Z] |].
  destruct (Rle_dec b 0); [exists 0; split; [reflexivity | exact Z] |].
  eexists. split; [reflexivity |]. f_equal.
  assert (E : highland x X0 (k * p) b = highland x X0 p b / k)
    by (unfold highland; field; lra).
  rewrite E. assert (Hi : 0 < / k) by now apply Rinv_0_lt_compat.
  unfold Rdiv at 2. rewrite Rmult_comm, <- RmaxRmult by lra.
  f_equal; unfold Rdiv; ring.
Qed.

Lemma highland_inverse_momentum_witness :
  exists v,
    Physics.calculateHighlandTheta (Fin 1) (Fin 36.08) (Fin 150) (Fin 0.5) = Fin v
    /\ Physics.calculateHighlandTheta (Fin 1) (Fin 36.08) (Fin (2 * 150)) (Fin 0.5)
       = Fin (v / 2).
Proof. apply highland_inverse_momentum. lra. Defined.

(** X12. On strictly positive real parameters the final clamp fires
    exactly for very thin layers: the result is 0 if and only if
    [x/X0 <= exp(-1/0.038)], and strictly positive otherwise. *)
Theorem highland_clamp_threshold (x X0 p b : R) :
  0 < x -> 0 < X0 -> 0 < p -> 0 < b ->
  exists v,
    Physics.calculateHighlandTheta (Fin x) (Fin X0) (Fin p) (Fin b) = Fin v
    /\ 0 <= v
    /\ (v = 0 <-> x / X0 <= Rtrigo_def.exp (- 1 / 0.038)).
Proof.
  intros Hx HX Hp Hb. rewrite highland_positive by assumption.
  eexists. split; [reflexivity |]. split; [apply Rmax_l |].
  assert (Hlx : 0 < x / X0) by now apply Rdiv_lt_0_compat.
  assert (Hc : 0 < 17.5 / (b * p) * R_sqrt.sqrt (x / X0)).
  { apply Rmult_lt_0_compat; [| now apply sqrt_lt_R0].
    apply Rdiv_lt_0_compat; [lra | now apply Rmult_lt_0_compat]. }
  unfold highland.
  set (c := 17.5 / (b * p) * R_sqrt.sqrt (x / X0)) in *.
  set (t := 1 + 0.038 * ln (x / X0)).
  assert (Hthr : x / X0 <= Rtrigo_def.exp (- 1 / 0.038) <-> t <= 0).
  { unfold t. split; intros H.
    - assert (ln (x / X0) <= - 1 / 0.038).
      { rewrite <- (ln_exp (- 1 / 0.038)).
        destruct H as [H | H]; [left; now apply ln_increasing | right; now rewrite H]. }
      lra.
    - assert (Hl : ln (x / X0) <= - 1 / 0.038) by lra.
      rewrite <- (exp_ln (x / X0)) by assumption.
      destruct Hl as [Hl | Hl]; [left; now apply exp_increasing | right; now rewrite Hl]. }
  rewrite Hthr. split; intros H.
  - destruct (Rle_dec t 0) as [Ht | Ht]; [assumption |].
    assert (0 < c * t) by (apply Rmult_lt_0_compat; lra).
    rewrite Rmax_right in H by lra. lra.
  - apply Rmax_left. nra.
Qed.

Lemma highland_clamp_threshold_witness :
  exists v,
    Physics.calculateHighlandTheta (Fin 1) (Fin 36.08) (Fin 150) (Fin 0.5) = Fin v
    /\ 0 <= v
    /\ (v = 0 <-> 1 / 36.08 <= Rtrigo_def.exp (- 1 / 0.038)).
Proof. apply highland_clamp_threshold; lra. Defined.

(** ** calculateFitCurve *)

Lemma max_of_real_from l m :
  fold_left JSMath.max2 (map Fin l) (Fin m) = Fin (fold_left Rmax l m).
Proof.
  revert m. induction l as [|x l IH]; intros m; [reflexivity |].
  cbn [map fold_left JSMath.max2 lt].
  destruct (Rlt_dec m x) as [H | H].
  - rewrite Rltb_true by assumption. rewrite IH. now rewrite Rmax_right by lra.
  - rewrite Rltb_false by assumption. rewrite IH. now rewrite Rmax_left by lra.
Qed.

Lemma max_of_real l :
  JSMath.max_of (map Fin l) = match l with [] => NInf | _ => Fin (Rmaximum l) end.
Proof.
  destruct l as [|x l]; [reflexivity |].
  unfold JSMath.max_of. cbn [map fold_left JSMath.max2 lt Rmaximum].
  apply max_of_real_from.
Qed.

Lemma profile_peak_real pts :
  pts <> [] ->
  JSMath.max_of (map intensity (real_profile pts)) = Fin (Rmaximum (map snd pts)).
Proof.
  intros Hne. unfold real_profile. rewrite map_map. cbn [real_point intensity].
  rewrite <- (map_map snd Fin), max_of_real.
  destruct pts; [congruence | reflexivity].
Qed.

Lemma gaussian_range M sigma r : 0 <= M -> sigma <> 0 -> 0 <= gaussian M sigma r <= M.
Proof.
  intros HM Hs. unfold gaussian.
  assert (Hss : 0 < 2 * sigma * sigma).
  { assert (0 < sigma * sigma) by (destruct (Rtotal_order sigma 0) as [|[|]]; nra). lra. }
  assert (Ht : - (r * r) / (2 * sigma * sigma) <= 0).
  { unfold Rdiv. assert (0 < / (2 * sigma * sigma)) by now apply Rinv_0_lt_compat.
    pose proof (Rle_0_sqr r) as Hr. unfold Rsqr in Hr. nra. }
  pose proof (exp_pos (- (r * r) / (2 * sigma * sigma))) as Hp.
  assert (He : Rtrigo_def.exp (- (r * r) / (2 * sigma * sigma)) <= 1).
  { rewrite <- exp_0. destruct Ht as [Ht | Ht];
      [left; now apply exp_increasing | right; now rewrite Ht]. }
  split; nra.
Qed.

(** X13. For a real profile and a real [sigma <> 0], [calculateFitCurve]
    keeps every point's radius and intensity and attaches the model value
    [M·exp(-r²/(2σ²))], where [M] is the largest intensity of the profile;
    for [M >= 0] the overlay lies in [[0, M]]. *)
Theorem fit_curve_values (pts : list (R * R)) (sigma : R) :
  sigma <> 0 ->
  let M := Rmaximum (map snd pts) in
  Physics.calculateFitCurve (real_profile pts) (Fin sigma)
  = map (fun p => {| radius := Fin (fst p); intensity := Fin (snd p);
                     fit := Some (Fin (M * Rtrigo_def.exp
                                             (- (fst p * fst p) / (2 * sigma * sigma)))) |})
        pts
  /\ (0 <= M ->
      forall p, In p pts ->
        0 <= M * Rtrigo_def.exp (- (fst p * fst p) / (2 * sigma * sigma)) <= M).
Proof.
  intros Hs M. split.
  - assert (Hne : pts = [] \/ pts <> [])
      by (destruct pts; [now left | right; discriminate]).
    destruct Hne as [-> | Hne]; [reflexivity |].
    unfold Physics.calculateFitCurve. rewrite profile_peak_real by assumption.
    fold M. unfold real_profile. rewrite map_map. apply map_ext. intros p.
    cbn [real_point radius intensity neg mul].
    assert (Hss : 2 * sigma * sigma <> 0).
    { intros H0. apply Hs. assert (sigma * sigma = 0) by lra.
      destruct (Rmult_integral _ _ H); assumption. }
    rewrite div_fin by assumption. reflexivity.
  - intros HM p _. apply (gaussian_range M sigma (fst p)); assumption.
Qed.

Lemma fit_curve_values_witness :
  Physics.calculateFitCurve (real_profile falling_profile) (Fin 2)
  = map (fun p => {| radius := Fin (fst p); intensity := Fin (snd p);
                     fit := Some (Fin (Rmaximum (map snd falling_profile)
                                       * Rtrigo_def.exp (- (fst p * fst p) / (2 * 2 * 2)))) |})
        falling_profile.
Proof. apply (proj1 (fit_curve_values falling_profile 2 ltac:(lra))). Defined.

(** X14. When the fit was refused ([sigma = 0]) the overlay of a real,
    non-empty profile is [NaN] on every point of radius 0 and 0 on every
    other point. *)
Theorem fit_curve_refused (pts : list (R * R)) :
  pts <> [] ->
  Physics.calculateFitCurve (real_profile pts) (Fin 0)
  = map (fun p => {| radius := Fin (fst p); intensity := Fin (snd p);
                     fit := Some (if Req_dec_T (fst p) 0 then NaN else Fin 0) |})
        pts.
Proof.
  intros Hne. unfold Physics.calculateFitCurve. rewrite profile_peak_real by assumption.
  unfold real_profile. rewrite map_map. apply map_ext. intros p.
  cbn [real_point radius intensity mul neg].
  replace (2 * 0 * 0) with 0 by ring. cbn [div]. rewrite Reqb_true by reflexivity.
  destruct (Req_dec_T (fst p) 0) as [H0 | H0].
  - rewrite H0. rewrite !Rltb_false by lra. reflexivity.
  - assert (Hsq : 0 < fst p * fst p)
      by (destruct (Rtotal_order (fst p) 0) as [|[|]]; [nra | contradiction | nra]).
    rewrite Rltb_false by lra. rewrite Rltb_true by lra.
    cbn [JSMath.exp mul]. do 3 f_equal. ring.
Qed.

Lemma fit_curve_refused_witness :
  Physics.calculateFitCurve (real_profile short_profile) (Fin 0)
  = map (fun p => {| radius := Fin (fst p); intensity := Fin (snd p);
                     fit := Some (if Req_dec_T (fst p) 0 then NaN else Fin 0) |})
        short_profile.
Proof. apply fit_curve_refused. discriminate. Defined.

(** ** thetaRms on arbitrary input *)

Lemma nonneg_ext_sound a : nonneg_ext a -> a <> NaN /\ lt a (Fin 0) = false.
Proof.
  intros [-> | (r & -> & Hr)]; (split; [discriminate |]); cbn [lt];
    [reflexivity | apply Rltb_false; lra].
Qed.

Lemma nonneg_ext_add a b : nonneg_ext a -> nonneg_ext b -> nonneg_ext (add a b).
Proof.
  intros [-> | (x & -> & Hx)] [-> | (y & -> & Hy)]; cbn [add];
    try (left; reflexivity).
  right. eexists. split; [reflexivity | lra].
Qed.

Lemma nonneg_ext_square a : gt a (Fin 0) = true -> nonneg_ext (mul a a).
Proof.
  intros H. destruct (gt_zero_cases a H) as [-> | (r & -> & Hr)]; cbn [mul].
  - now left.
  - right. eexists. split; [reflexivity | nra].
Qed.

Lemma sum_squares_nonneg thetas acc :
  Forall (fun t => gt t (Fin 0) = true) thetas -> nonneg_ext acc ->
  nonneg_ext (fold_left (fun sum theta => add sum (mul theta theta)) thetas acc).
Proof.
  intros H. revert acc. induction H as [|t ts Ht _ IH]; intros acc Hacc; [assumption |].
  cbn [fold_left]. apply IH. apply nonneg_ext_add; [assumption |].
  now apply nonneg_ext_square.
Qed.

Lemma thetaRms_nonneg_ext (rs : list AnalysisSummary) : nonneg_ext (App.thetaRms rs).
Proof.
  unfold App.thetaRms.
  set (valid := List.filter (fun t => gt t (Fin 0)) (map theta rs)).
  destruct (length valid =? 0)%nat eqn:En.
  - right. exists 0. split; [reflexivity | lra].
  - apply Nat.eqb_neq in En.
    assert (Hv : Forall (fun t => gt t (Fin 0) = true) valid).
    { apply List.Forall_forall. intros t Ht. unfold valid in Ht.
      now apply filter_In in Ht. }
    assert (Hn : 0 < INR (length valid)) by (apply lt_0_INR; lia).
    assert (Hz : nonneg_ext (Fin 0)) by (right; exists 0; split; [reflexivity | lra]).
    destruct (sum_squares_nonneg valid (Fin 0) Hv Hz) as [-> | (r & -> & Hr)].
    + left. unfold of_nat. cbn [div]. rewrite Rltb_false by lra. reflexivity.
    + right. unfold of_nat. rewrite div_fin by lra.
      assert (0 <= r / INR (length valid)).
      { apply Rmult_le_pos; [assumption | left; now apply Rinv_0_lt_compat]. }
      rewrite sqrt_fin by assumption. eexists. split; [reflexivity | apply sqrt_pos].
Qed.

(** X15. Whatever the summaries hold ([NaN], infinite or negative thetas
    included), the aggregate [thetaRms] is never [NaN] and never negative. *)
Theorem thetaRms_never_NaN (rs : list AnalysisSummary) :
  App.thetaRms rs <> NaN /\ lt (App.thetaRms rs) (Fin 0) = false.
Proof. apply nonneg_ext_sound, thetaRms_nonneg_ext. Qed.

(** X16. The aggregate lies between the smallest and the largest
    contributing theta: if every strictly positive theta is in
    [[lo, hi]] and there is at least one, so is [thetaRms]. *)
Theorem thetaRms_between (rs : list AnalysisSummary) (ts : list R) (lo hi : R) :
  map theta rs = map Fin ts ->
  0 <= lo ->
  (exists t, In t ts /\ 0 < t) ->
  (forall t, In t ts -> 0 < t -> lo <= t <= hi) ->
  exists v, App.thetaRms rs = Fin v /\ lo <= v <= hi.
Proof.
  intros Hrs Hlo (t0 & Hin0 & Hpos0) Hb.
  rewrite (thetaRms_real rs ts Hrs). eexists. split; [reflexivity |].
  unfold rms.
  assert (Hne : In t0 (positive_thetas ts))
    by (apply filter_In; split; [assumption | now apply Rltb_true]).
  destruct (positive_thetas ts) as [|t pos] eqn:E; [contradiction |].
  set (l := t :: pos) in *.
  assert (Hn : 0 < INR (length l)) by (apply lt_0_INR; cbn; lia).
  assert (Hr : lo * lo * INR (length l)
               <= Rsum (map (fun x => x * x) l) <= hi * hi * INR (length l)).
  { apply Rsum_range, List.Forall_forall. intros x Hx.
    assert (Hx' : In x (positive_thetas ts)) by (rewrite E; exact Hx).
    clear Hx. apply filter_In in Hx'. destruct Hx' as [Hx Hp]. apply Rltb_spec in Hp.
    destruct (Hb x Hx Hp). split; nra. }
  assert (Hhi : 0 <= hi) by (destruct (Hb t0 Hin0 Hpos0); lra).
  assert (Hq : lo * lo <= Rsum (map (fun x => x * x) l) / INR (length l) <= hi * hi).
  { assert (Hi : 0 < / INR (length l)) by now apply Rinv_0_lt_compat.
    unfold Rdiv. split.
    - replace (lo * lo) with (lo * lo * INR (length l) * / INR (length l))
        by (field; lra).
      apply Rmult_le_compat_r; lra.
    - replace (hi * hi) with (hi * hi * INR (length l) * / INR (length l))
        by (field; lra).
      apply Rmult_le_compat_r; lra. }
  split.
  - rewrite <- (sqrt_square lo) at 1 by assumption. apply sqrt_le_1_alt. lra.
  - rewrite <- (sqrt_square hi) by assumption. apply sqrt_le_1_alt. lra.
Qed.

Lemma thetaRms_between_witness :
  exists v,
    App.thetaRms (map summary_with_theta [Fin 0.01; Fin 0.02; Fin 0]) = Fin v
    /\ 0.01 <= v <= 0.02.
Proof.
  apply (thetaRms_between _ [0.01; 0.02; 0]); [reflexivity | lra | |].
  - exists 0.01. split; [now left | lra].
  - intros t [<- | [<- | [<- | []]]] Ht; lra.
Defined.

Lemma summary_without_material th f :
  materialSigma f = None ->
  sigmaCorrected (App.summary th f) = Fin 0 /\ theta (App.summary th f) = Fin 0.
Proof.
  intros Hf.
  assert (Hsc : sigmaCorrected (App.summary th f) = Fin 0).
  { unfold App.summary. cbn [sigmaCorrected]. rewrite Hf. cbn [or_zero mul].
    destruct (or_zero (airSigma f)) as [r| | |]; cbn [mul sub neg add gt lt];
      unfold inf_times; rcmp; cbn [signed_inf negb neg add lt]; try reflexivity.
    rewrite Rltb_false; [reflexivity |].
    pose proof (Rle_0_sqr r) as Hr. unfold Rsqr in Hr. lra. }
  split; [assumption |].
  unfold App.summary in *. cbn [sigmaCorrected theta] in *. rewrite Hsc.
  destruct (gt (distanceL f) (Fin 0)) eqn:Hd; [| reflexivity].
  destruct (gt_zero_cases _ Hd) as [-> | (d & -> & Hpos)]; [reflexivity |].
  rewrite div_fin by lra. f_equal. unfold Rdiv. ring.
Qed.

(** X17. As long as no film has a material sigma, every corrected sigma and
    every theta is 0 and the aggregate is 0, whatever the distances, the
    air sigmas and the theoretical angle are. *)
Theorem thetaRms_without_material (films : list FilmSample) (th : number) :
  Forall (fun f => materialSigma f = None) films ->
  Forall (fun s => sigmaCorrected s = Fin 0 /\ theta s = Fin 0) (App.results films th)
  /\ App.thetaRms (App.results films th) = Fin 0.
Proof.
  intros H.
  assert (Hall : Forall (fun s => sigmaCorrected s = Fin 0 /\ theta s = Fin 0)
                        (App.results films th)).
  { unfold App.results. apply Forall_map.
    eapply List.Forall_impl; [| exact H]. intros f Hf.
    now apply summary_without_material. }
  split; [assumption |].
  apply thetaRms_none. eapply List.Forall_impl; [| exact Hall].
  intros s [_ Ht]. cbn beta. rewrite Ht. cbn [gt lt]. apply Rltb_false. lra.
Qed.

Lemma thetaRms_without_material_witness :
  Forall (fun s => sigmaCorrected s = Fin 0 /\ theta s = Fin 0)
         (App.results App.INITIAL_FILMS (Fin 0.03))
  /\ App.thetaRms (App.results App.INITIAL_FILMS (Fin 0.03)) = Fin 0.
Proof.
  apply thetaRms_without_material. unfold App.INITIAL_FILMS.
  apply Forall_map, List.Forall_forall. intros i _. reflexivity.
Defined.

(** ** The state handlers of the application *)

Ltac handler_cases i j :=
  unfold App.handleAnalysisComplete, App.updateDistance;
  rewrite ?map_map; apply map_ext; intros f;
  destruct (Nat.eqb (id f) i) eqn:Ei; destruct (Nat.eqb (id f) j) eqn:Ej;
  cbn; rewrite ?Ei, ?Ej; cbn; try reflexivity; try congruence.

(** X18. The analysis callbacks arrive asynchronously; the film list they
    produce does not depend on their order when they fill different slots
    (another film or the other channel), a later result for the same slot
    replaces the earlier one, and a distance edit commutes with them. *)
Theorem callbacks_order_independent (films : list FilmSample) (i j : nat)
  (t t' : App.Channel) (a b : number) :
  (i <> j \/ t <> t' ->
   App.handleAnalysisComplete (App.handleAnalysisComplete films i t a) j t' b
   = App.handleAnalysisComplete (App.handleAnalysisComplete films j t' b) i t a)
  /\ App.handleAnalysisComplete (App.handleAnalysisComplete films i t a) i t b
     = App.handleAnalysisComplete films i t b
  /\ App.updateDistance (App.handleAnalysisComplete films i t a) j b
     = App.handleAnalysisComplete (App.updateDistance films j b) i t a.
Proof.
  split; [| split].
  - intros H. destruct t, t'; handler_cases i j;
      apply Nat.eqb_eq in Ei, Ej; destruct H; congruence.
  - destruct t; handler_cases i i.
  - destruct t; handler_cases i j.
Qed.

Lemma callbacks_order_independent_witness :
  App.handleAnalysisComplete
    (App.handleAnalysisComplete App.INITIAL_FILMS 1 App.Air (Fin 3)) 1 App.Material (Fin 5)
  = App.handleAnalysisComplete
      (App.handleAnalysisComplete App.INITIAL_FILMS 1 App.Material (Fin 5)) 1 App.Air (Fin 3).
Proof.
  apply (proj1 (callbacks_order_independent App.INITIAL_FILMS 1 1 App.Air App.Material
                  (Fin 3) (Fin 5))).
  right. discriminate.
Defined.

(** X19. Editing a distance never changes a corrected sigma, touches only
    the films with the given id (none: nothing changes), and gives those
    the new distance. *)
Theorem updateDistance_effect (films : list FilmSample) (i : nat) (val th : number) :
  map sigmaCorrected (App.results (App.updateDistance films i val) th)
  = map sigmaCorrected (App.results films th)
  /\ map id (App.updateDistance films i val) = map id films
  /\ (Forall (fun f => id f <> i) films -> App.updateDistance films i val = films)
  /\ Forall (fun s => sampleId s = i -> distance s = val)
            (App.results (App.updateDistance films i val) th).
Proof.
  unfold App.results, App.updateDistance. rewrite !map_map.
  split; [| split; [| split]].
  - apply map_ext. intros f. destruct (id f =? i)%nat; reflexivity.
  - apply map_ext. intros f. destruct (id f =? i)%nat; reflexivity.
  - intros H. induction H as [|f fs Hf _ IH]; [reflexivity |].
    cbn [map]. rewrite IH. apply Nat.eqb_neq in Hf. now rewrite Hf.
  - apply Forall_map, List.Forall_forall. intros f _.
    destruct (Nat.eqb_spec (id f) i); cbn [App.summary sampleId distance id distanceL];
      [reflexivity | congruence].
Qed.

Lemma updateDistance_effect_witness :
  App.updateDistance App.INITIAL_FILMS 11 (Fin 50) = App.INITIAL_FILMS.
Proof.
  apply (proj1 (proj2 (proj2 (updateDistance_effect App.INITIAL_FILMS 11 (Fin 50) (Fin 0))))).
  unfold App.INITIAL_FILMS. apply Forall_map, List.Forall_forall.
  intros k Hk. apply in_seq in Hk. cbn [App.initial_film id]. lia.
Defined.

(** ** The theory-match percentage *)

Lemma matchPercentage_real rms th :
  ResultsTable.matchPercentage (Fin rms) (Fin th)
  = if Rlt_dec 0 th then Fin (Rmax 0 (100 - Rabs (rms - th) / th * 100)) else Fin 0.
Proof.
  unfold ResultsTable.matchPercentage. cbn [gt lt].
  destruct (Rlt_dec 0 th) as [H | H].
  - rewrite Rltb_true by assumption. cbn [sub neg add JSMath.abs].
    rewrite div_fin by lra. cbn [mul add neg JSMath.max2 lt].
    replace (rms + - th) with (rms - th) by ring.
    replace (100 + - (Rabs (rms - th) / th * 100))
      with (100 - Rabs (rms - th) / th * 100) by ring.
    set (v := 100 - Rabs (rms - th) / th * 100).
    destruct (Rlt_dec 0 v).
    + rewrite Rltb_true by assumption. now rewrite Rmax_right by lra.
    + rewrite Rltb_false by assumption. now rewrite Rmax_left by lra.
  - now rewrite Rltb_false by assumption.
Qed.

(** X20. For a real aggregate and a real theoretical angle the match is a
    real percentage in [[0, 100]]; it is 0 when the theoretical angle is
    not positive, and for a positive one it is 100 exactly when the two
    angles coincide and 0 exactly when they differ by the theoretical
    angle or more. *)
Theorem matchPercentage_range (rms th : R) :
  exists v,
    ResultsTable.matchPercentage (Fin rms) (Fin th) = Fin v
    /\ 0 <= v <= 100
    /\ (th <= 0 -> v = 0)
    /\ (0 < th -> (v = 100 <-> rms = th) /\ (v = 0 <-> th <= Rabs (rms - th))).
Proof.
  rewrite matchPercentage_real.
  destruct (Rlt_dec 0 th) as [Hth | Hth].
  - eexists. split; [reflexivity |].
    pose proof (Rabs_pos (rms - th)) as Ha.
    assert (Hi : 0 < / th) by now apply Rinv_0_lt_compat.
    set (q := Rabs (rms - th) / th).
    assert (Hq : 0 <= q) by (unfold q, Rdiv; apply Rmult_le_pos; lra).
    assert (Hq1 : q = 0 <-> rms = th).
    { unfold q. split; intros H.
      - assert (Rabs (rms - th) = 0).
        { unfold Rdiv in H. apply Rmult_integral in H. destruct H; lra. }
        destruct (Req_dec_T rms th); [assumption |].
        exfalso. apply (Rabs_no_R0 (rms - th)); lra.
      - subst. unfold Rdiv. rewrite Rminus_diag, Rabs_R0. ring. }
    assert (Hq2 : 1 <= q <-> th <= Rabs (rms - th)).
    { unfold q. split; intros H.
      - replace (Rabs (rms - th)) with (Rabs (rms - th) / th * th) by (field; lra).
        nra.
      - unfold Rdiv. replace 1 with (th * / th) by (field; lra).
        apply Rmult_le_compat_r; lra. }
    split; [| split; [lra |]].
    + split; [apply Rmax_l | apply Rmax_lub; lra].
    + intros _. split; split; intros H.
      * apply Hq1. destruct (Rle_dec (100 - q * 100) 0).
        -- rewrite Rmax_left in H by lra. lra.
        -- rewrite Rmax_right in H by lra. lra.
      * apply Hq1 in H. rewrite H. rewrite Rmax_right by lra. lra.
      * apply Hq2. destruct (Rle_dec (100 - q * 100) 0).
        -- lra.
        -- rewrite Rmax_right in H by lra. lra.
      * apply Hq2 in H. apply Rmax_left. lra.
  - exists 0. split; [reflexivity |]. repeat split; try lra; intros; lra.
Qed.

Lemma matchPercentage_range_witness :
  exists v,
    ResultsTable.matchPercentage (Fin 0.03) (Fin 0.03) = Fin v
    /\ 0 <= v <= 100
    /\ (0.03 <= 0 -> v = 0)
    /\ (0 < 0.03 -> (v = 100 <-> 0.03 = 0.03) /\ (v = 0 <-> 0.03 <= Rabs (0.03 - 0.03))).
Proof. apply matchPercentage_range. Defined.

Lemma matchPercentage_cases rms th :
  nonneg_ext rms ->
  (th = PInf /\ ResultsTable.matchPercentage rms th = NaN)
  \/ (th <> PInf
      /\ exists v, ResultsTable.matchPercentage rms th = Fin v /\ 0 <= v <= 100).
Proof.
  intros Hrms. destruct th as [t| | |].
  - right. split; [discriminate |].
    destruct (Rlt_dec 0 t) as [Ht | Ht].
    + destruct Hrms as [-> | (r & -> & Hr)].
      * exists 0. split; [| lra]. unfold ResultsTable.matchPercentage.
        cbn [gt lt]. rewrite Rltb_true by assumption.
        cbn [sub neg add JSMath.abs div]. rewrite (Rltb_false t 0) by lra.
        cbn [negb signed_inf mul]. unfold inf_times. rcmp.
        cbn [signed_inf neg add JSMath.max2 lt]. reflexivity.
      * rewrite matchPercentage_real. destruct (Rlt_dec 0 t); [| contradiction].
        eexists. split; [reflexivity |].
        pose proof (Rabs_pos (r - t)) as Ha.
        assert (Hi : 0 < / t) by now apply Rinv_0_lt_compat.
        assert (Hq : 0 <= Rabs (r - t) / t) by (unfold Rdiv; apply Rmult_le_pos; lra).
        split; [apply Rmax_l | apply Rmax_lub; lra].
    + exists 0. split; [| lra]. unfold ResultsTable.matchPercentage.
      cbn [gt lt]. now rewrite Rltb_false by assumption.
  - left. split; [reflexivity |].
    destruct Hrms as [-> | (r & -> & Hr)]; reflexivity.
  - right. split; [discriminate |]. exists 0. split; [reflexivity | lra].
  - right. split; [discriminate |]. exists 0. split; [reflexivity | lra].
Qed.

(** X21. Whatever the films and the Highland parameters hold, the match
    displayed from the chain
    films -> results -> thetaRms, parameters -> theoretical theta, -> match
    is [NaN] exactly when the theoretical theta is [+Infinity]; in every
    other case it is a real percentage between 0 and 100. *)
Theorem displayed_match_range (films : list FilmSample) (hp : HighlandParams) :
  let th := App.theoreticalTheta_of hp in
  let shown := ResultsTable.matchPercentage (App.thetaRms (App.results films th)) th in
  (shown = NaN <-> th = PInf)
  /\ (th <> PInf -> exists v, shown = Fin v /\ 0 <= v <= 100).
Proof.
  cbv zeta. set (th := App.theoreticalTheta_of hp).
  destruct (matchPercentage_cases (App.thetaRms (App.results films th)) th
              (thetaRms_nonneg_ext _)) as [[Hth Hm] | [Hth (v & Hm & Hv)]].
  - split; [split; intros; assumption | congruence].
  - split.
    + split; [rewrite Hm; discriminate | congruence].
    + intros _. exists v. split; assumption.
Qed.

(** ** The comparison view *)

(** X22. Toggling a run flips its membership in the selection, leaves every
    other run as it was, and toggling twice restores the selection. *)
Theorem toggleRun_flips (selected : gset string) (i : string) :
  (i ∈ ComparisonView.toggleRun selected i <-> i ∉ selected)
  /\ (forall j, j <> i -> (j ∈ ComparisonView.toggleRun selected i <-> j ∈ selected))
  /\ ComparisonView.toggleRun (ComparisonView.toggleRun selected i) i = selected.
Proof.
  unfold ComparisonView.toggleRun.
  split; [| split].
  - destruct (decide (i ∈ selected)) as [Hin | Hout].
    + split; [intros Hd; apply elem_of_difference in Hd as [_ Hd];
              exfalso; apply Hd; now apply elem_of_singleton
             | intros Hn; contradiction].
    + split; [intros _; assumption
             | intros _; apply elem_of_union; right; now apply elem_of_singleton].
  - intros j Hj. destruct (decide (i ∈ selected)) as [Hin | Hout].
    + rewrite elem_of_difference, elem_of_singleton. tauto.
    + rewrite elem_of_union, elem_of_singleton. tauto.
  - destruct (decide (i ∈ selected)) as [Hin | Hout].
    + destruct (decide (i ∈ selected ∖ {[i]})) as [Hd | Hd].
      * apply elem_of_difference in Hd as [_ Hd].
        exfalso. apply Hd. now apply elem_of_singleton.
      * apply set_eq. intros k.
        rewrite elem_of_union, elem_of_difference, !elem_of_singleton.
        destruct (decide (k = i)) as [-> | Hk]; tauto.
    + destruct (decide (i ∈ selected ∪ {[i]})) as [Hd | Hd].
      * apply set_eq. intros k.
        rewrite elem_of_difference, elem_of_union, !elem_of_singleton.
        destruct (decide (k = i)) as [-> | Hk]; tauto.
      * exfalso. apply Hd. apply elem_of_union. right. now apply elem_of_singleton.
Qed.

Lemma le_refl_number a : a <> NaN -> le a a = true.
Proof.
  destruct a as [r| | |]; intros H; cbn [le]; try reflexivity; try congruence.
  apply Rleb_true. lra.
Qed.

Lemma max2_upper a b :
  a <> NaN -> b <> NaN ->
  JSMath.max2 a b <> NaN
  /\ le a (JSMath.max2 a b) = true /\ le b (JSMath.max2 a b) = true
  /\ (JSMath.max2 a b = a \/ JSMath.max2 a b = b).
Proof.
  intros Ha Hb.
  destruct a as [x| | |], b as [y| | |]; try congruence; cbn [JSMath.max2 lt le];
    try (repeat split; first [discriminate | reflexivity | now left | now right
                              | apply Rleb_true; lra]).
  destruct (Rlt_dec x y) as [H | H].
  - rewrite Rltb_true by assumption. cbn [le].
    repeat split; first [discriminate | now right | apply Rleb_true; lra].
  - rewrite Rltb_false by assumption. cbn [le].
    repeat split; first [discriminate | now left | apply Rleb_true; lra].
Qed.

Lemma le_trans_number a b c : le a b = true -> le b c = true -> le a c = true.
Proof.
  destruct a as [x| | |], b as [y| | |], c as [z| | |]; cbn [le];
    try discriminate; try reflexivity.
  intros H1 H2. apply Rleb_spec in H1, H2. apply Rleb_true. lra.
Qed.

Lemma max_fold_upper xs acc :
  acc <> NaN -> Forall (fun x => x <> NaN) xs ->
  let m := fold_left JSMath.max2 xs acc in
  m <> NaN /\ le acc m = true /\ Forall (fun x => le x m = true) xs
  /\ (m = acc \/ In m xs).
Proof.
  intros Hacc H. revert acc Hacc.
  induction H as [|x xs Hx _ IH]; intros acc Hacc; cbn [fold_left].
  - cbv zeta. repeat split; [assumption | now apply le_refl_number | constructor | now left].
  - destruct (max2_upper acc x Hacc Hx) as (Hn & Ha & Hxm & Hsel).
    destruct (IH (JSMath.max2 acc x) Hn) as (Hm & Hle & Hall & Hin).
    cbv zeta in *. repeat split.
    + assumption.
    + eapply le_trans_number; eassumption.
    + constructor; [eapply le_trans_number; eassumption | assumption].
    + destruct Hin as [-> | Hin]; [| right; now right].
      destruct Hsel as [-> | ->]; [now left | right; now left].
Qed.

(** X23. For a run saved from a non-empty film list, the table's "Max σ" is
    an upper bound of every corrected sigma of the run, is one of them,
    and is neither [NaN] nor negative; for a run without results it is
    [-Infinity]. *)
Theorem maxSigma_is_maximum (run : SavedRun) (films : list FilmSample) (th : number) :
  run_results run = App.results films th ->
  (films = [] -> ComparisonView.maxSigma run = NInf)
  /\ (films <> [] ->
      ComparisonView.maxSigma run <> NaN
      /\ ge (ComparisonView.maxSigma run) (Fin 0) = true
      /\ Forall (fun s => le (sigmaCorrected s) (ComparisonView.maxSigma run) = true)
                (run_results run)
      /\ exists s, In s (run_results run)
                   /\ sigmaCorrected s = ComparisonView.maxSigma run).
Proof.
  intros Hr. unfold ComparisonView.maxSigma, JSMath.max_of. rewrite Hr.
  split; [intros ->; reflexivity | intros Hne].
  set (xs := map sigmaCorrected (App.results films th)).
  assert (Hxs : Forall (fun x => x <> NaN /\ ge x (Fin 0) = true) xs).
  { unfold xs, App.results. rewrite map_map. apply Forall_map, List.Forall_forall.
    intros f _. destruct (summary_sigmaCorrected_sound th f). split; assumption. }
  assert (Hnan : Forall (fun x => x <> NaN) xs)
    by (eapply List.Forall_impl; [| exact Hxs]; intros x [H _]; exact H).
  destruct (max_fold_upper xs NInf ltac:(discriminate) Hnan) as (Hm & _ & Hall & Hin).
  cbv zeta in *. set (m := fold_left JSMath.max2 xs NInf) in *.
  assert (Hin' : In m xs).
  { destruct Hin as [E | Hin]; [| assumption].
    destruct films as [|f fs]; [congruence |].
    exfalso. unfold xs in Hall. cbn [App.results map] in Hall.
    pose proof (List.Forall_inv Hall) as Hle. cbv beta in Hle. rewrite E in Hle.
    destruct (summary_sigmaCorrected_sound th f) as [Hn Hge].
    destruct (sigmaCorrected (App.summary th f)); cbn in Hle, Hge; congruence. }
  repeat split.
  - assumption.
  - rewrite List.Forall_forall in Hxs. now destruct (Hxs m Hin').
  - unfold xs in Hall. now apply Forall_map in Hall.
  - unfold xs in Hin'. apply in_map_iff in Hin'. destruct Hin' as (s & Hs & Hin').
    exists s. split; assumption.
Qed.

Lemma maxSigma_is_maximum_witness :
  ComparisonView.maxSigma sample_run <> NaN
  /\ ge (ComparisonView.maxSigma sample_run) (Fin 0) = true.
Proof.
  destruct (proj2 (maxSigma_is_maximum sample_run App.INITIAL_FILMS (Fin 0.03) eq_refl))
    as (H1 & H2 & _).
  - discriminate.
  - split; assumption.
Defined.

(** ** The comparison chart *)

Lemma lookup_set_property_ne (point : gmap string number) key v k :
  k <> key -> ComparisonView.set_property point key v !! k = point !! k.
Proof.
  intros H. unfold ComparisonView.set_property.
  destruct (decide (key = "__proto__"%string)); [reflexivity |].
  apply lookup_insert_ne. congruence.
Qed.

Lemma lookup_set_property_eq (point : gmap string number) key v :
  key <> "__proto__"%string -> ComparisonView.set_property point key v !! key = Some v.
Proof.
  intros H. unfold ComparisonView.set_property.
  destruct (decide (key = "__proto__"%string)); [contradiction |].
  apply lookup_insert_eq.
Qed.

Lemma lookup_set_property_proto (point : gmap string number) key v :
  ComparisonView.set_property point key v !! "__proto__"%string
  = point !! "__proto__"%string.
Proof.
  unfold ComparisonView.set_property.
  destruct (decide (key = "__proto__"%string)); [reflexivity |].
  apply lookup_insert_ne. assumption.
Qed.

Lemma chart_fold_lookup (dist : number) (runs : list SavedRun) :
  List.NoDup (map run_id runs) ->
  forall m0 : gmap string number,
    let step := fun (point : gmap string number) run =>
                  match List.find (fun r => strict_eq (distance r) dist) (run_results run) with
                  | Some m => ComparisonView.set_property point (run_id run) (sigmaCorrected m)
                  | None => point
                  end in
    (forall k, ~ In k (map run_id runs) -> fold_left step runs m0 !! k = m0 !! k)
    /\ fold_left step runs m0 !! "__proto__"%string = m0 !! "__proto__"%string
    /\ (forall run, In run runs -> run_id run <> "__proto__"%string ->
          fold_left step runs m0 !! run_id run
          = match List.find (fun r => strict_eq (distance r) dist) (run_results run) with
            | Some m => Some (sigmaCorrected m)
            | None => m0 !! run_id run
            end).
Proof.
  intros Hnd. induction runs as [|r rs IH]; intros m0 step.
  - split; [reflexivity | split; [reflexivity | intros run []]].
  - cbn [map] in Hnd. apply List.NoDup_cons_iff in Hnd. destruct Hnd as [Hr Hnd].
    specialize (IH Hnd (step m0 r)). cbv zeta in IH. fold step in IH.
    destruct IH as (IHk & IHp & IHr). cbn [fold_left]. split; [| split].
    + intros k Hk. cbn [map] in Hk.
      rewrite IHk by (intros Hin; apply Hk; now right).
      unfold step. destruct (List.find _ (run_results r)); [| reflexivity].
      apply lookup_set_property_ne. intros E. apply Hk. now left.
    + rewrite IHp. unfold step.
      destruct (List.find _ (run_results r)); [| reflexivity].
      apply lookup_set_property_proto.
    + intros run [<- | Hin] Hp.
      * rewrite IHk by assumption. unfold step.
        destruct (List.find _ (run_results r));
          [now apply lookup_set_property_eq | reflexivity].
      * rewrite IHr by assumption.
        destruct (List.find _ (run_results run)); [reflexivity |].
        unfold step. destruct (List.find _ (run_results r)); [| reflexivity].
        apply lookup_set_property_ne. intros E. apply Hr. rewrite <- E.
        now apply in_map.
Qed.

Lemma filter_NoDup_map {A B} (f : A -> B) (g : A -> bool) l :
  List.NoDup (map f l) -> List.NoDup (map f (List.filter g l)).
Proof.
  induction l as [|a l IH]; intros H; [constructor |].
  cbn [map] in H. apply List.NoDup_cons_iff in H. destruct H as [Ha H].
  cbn [List.filter]. destruct (g a); [| now apply IH].
  cbn [map]. constructor; [| now apply IH].
  intros Hin. apply Ha. apply in_map_iff in Hin. destruct Hin as (b & Hb & Hin).
  apply filter_In in Hin. apply in_map_iff. exists b. tauto.
Qed.

(** X24. In the comparison chart every point carries its distance under
    the key ["distance"]; for every selected run whose id is not
    ["__proto__"] the run's key holds the corrected sigma of the run's first
    result at exactly that distance, and is absent when the run has no
    result there; under the key ["__proto__"] no point stores a property.
    (Run ids are distinct and none is the word "distance".) *)
Theorem chart_point_columns (savedRuns : list SavedRun) (selected : gset string) :
  List.NoDup (map run_id savedRuns) ->
  Forall (fun r => run_id r <> "distance"%string) savedRuns ->
  Forall (fun point =>
            exists dist,
              point !! "distance"%string = Some dist
              /\ point !! "__proto__"%string = None
              /\ forall run, In run savedRuns -> run_id run ∈ selected ->
                   run_id run <> "__proto__"%string ->
                   point !! run_id run
                   = sigmaCorrected
                       <$> List.find (fun r => strict_eq (distance r) dist)
                                     (run_results run))
         (ComparisonView.chartData savedRuns selected).
Proof.
  intros Hnd Hid. unfold ComparisonView.chartData.
  destruct (decide (size selected = 0%nat)); [constructor |].
  set (sel := List.filter (fun r => bool_decide (run_id r ∈ selected)) savedRuns).
  apply Forall_map, List.Forall_forall. intros dist _. exists dist.
  assert (Hsel : List.NoDup (map run_id sel)) by now apply filter_NoDup_map.
  destruct (chart_fold_lookup dist sel Hsel {[ "distance"%string := dist ]})
    as (Hk & Hp & Hr).
  cbv zeta in Hk, Hp, Hr. split; [| split].
  - unfold ComparisonView.chart_point. rewrite Hk; [apply lookup_singleton_eq |].
    intros Hin. apply in_map_iff in Hin. destruct Hin as (r & Hr' & Hin).
    apply filter_In in Hin. destruct Hin as [Hin _].
    rewrite List.Forall_forall in Hid. now apply (Hid r Hin).
  - unfold ComparisonView.chart_point. rewrite Hp.
    now apply lookup_singleton_ne.
  - intros run Hin Hs Hproto. unfold ComparisonView.chart_point. rewrite Hr.
    + destruct (List.find _ (run_results run)); [reflexivity |].
      cbn [fmap option_fmap option_map]. apply lookup_singleton_ne.
      rewrite List.Forall_forall in Hid. intros E. now apply (Hid run Hin).
    + unfold sel. apply filter_In. split; [assumption | now apply bool_decide_eq_true_2].
    + assumption.
Qed.

Lemma chart_point_columns_witness :
  Forall (fun point =>
            exists dist,
              point !! "distance"%string = Some dist
              /\ point !! "__proto__"%string = None
              /\ forall run, In run [sample_run] -> run_id run ∈ ({[ "1"%string ]} : gset string) ->
                   run_id run <> "__proto__"%string ->
                   point !! run_id run
                   = sigmaCorrected
                       <$> List.find (fun r => strict_eq (distance r) dist)
                                     (run_results run))
         (ComparisonView.chartData [sample_run] {[ "1"%string ]}).
Proof.
  apply chart_point_columns.
  - cbn [map]. constructor; [intros [] | constructor].
  - constructor; [discriminate | constructor].
Defined.

Lemma chart_point_distance (runs : list SavedRun) (dist : number) :
  Forall (fun r => run_id r <> "distance"%string) runs ->
  ComparisonView.chart_point runs dist !! "distance"%string = Some dist.
Proof.
  intros H. unfold ComparisonView.chart_point.
  assert (G : forall m0 : gmap string number,
             fold_left
               (fun (point : gmap string number) run =>
                  match List.find (fun r => strict_eq (distance r) dist) (run_results run) with
                  | Some m => ComparisonView.set_property point (run_id run) (sigmaCorrected m)
                  | None => point
                  end) runs m0 !! "distance"%string
             = m0 !! "distance"%string).
  { induction H as [|r rs Hr _ IH]; intros m0; [reflexivity |].
    cbn [fold_left]. rewrite IH.
    destruct (List.find _ (run_results r)); [| reflexivity].
    apply lookup_set_property_ne. congruence. }
  rewrite G. apply lookup_singleton_eq.
Qed.

Lemma existsb_same_value_real d l :
  existsb (JSMath.same_value_zero (Fin d)) (map Fin l) = true <-> In d l.
Proof.
  induction l as [|x l IH]; cbn [map existsb In]; [split; [discriminate | tauto] |].
  rewrite orb_true_iff, IH. cbn [JSMath.same_value_zero strict_eq].
  rewrite Reqb_spec. split; intros [H | H]; auto.
Qed.

Lemma set_add_real l d :
  List.NoDup l ->
  exists l', ComparisonView.set_add (map Fin l) (Fin d) = map Fin l'
             /\ List.NoDup l' /\ forall x, In x l' <-> In x l \/ x = d.
Proof.
  intros Hnd. unfold ComparisonView.set_add.
  destruct (existsb _ _) eqn:E.
  - apply existsb_same_value_real in E. exists l. repeat split; auto.
    intros [H | ->]; assumption.
  - assert (Hn : ~ In d l).
    { intros H. apply existsb_same_value_real in H. congruence. }
    exists (l ++ [d]). split; [now rewrite map_app |]. split.
    + apply NoDup_app_remove_l with (l := []). cbn [app].
      apply List.NoDup_app; [assumption | constructor; [intros [] | constructor] |].
      intros x Hx [<- | []]. contradiction.
    + intros x. rewrite in_app_iff. cbn [In]. intuition.
Qed.

Lemma add_results_real results l :
  Forall (fun s => exists d, distance s = Fin d) results ->
  List.NoDup l ->
  exists l',
    fold_left (fun s' r => ComparisonView.set_add s' (distance r)) results (map Fin l)
    = map Fin l'
    /\ List.NoDup l'
    /\ forall x, In x l' <-> In x l \/ exists s, In s results /\ distance s = Fin x.
Proof.
  intros H. revert l. induction H as [|s rs [d Hd] _ IH]; intros l Hnd.
  - exists l. repeat split; auto. intros [H | (s & [] & _)]. assumption.
  - cbn [fold_left]. rewrite Hd.
    destruct (set_add_real l d Hnd) as (l1 & E1 & Hnd1 & Hin1). rewrite E1.
    destruct (IH l1 Hnd1) as (l2 & E2 & Hnd2 & Hin2).
    exists l2. split; [assumption | split; [assumption |]].
    intros x. rewrite Hin2, Hin1. split.
    + intros [[H | ->] | (s' & Hs' & Hx)]; [now left | |].
      * right. exists s. split; [now left | assumption].
      * right. exists s'. split; [now right | assumption].
    + intros [H | (s' & [<- | Hs'] & Hx)].
      * left. now left.
      * left. right. rewrite Hd in Hx. now injection Hx.
      * right. exists s'. split; assumption.
Qed.

Lemma allDistances_real_from runs l :
  real_distances runs -> List.NoDup l ->
  exists l',
    fold_left (fun s run =>
                 fold_left (fun s' r => ComparisonView.set_add s' (distance r))
                           (run_results run) s) runs (map Fin l)
    = map Fin l'
    /\ List.NoDup l'
    /\ forall x, In x l' <->
                 In x l \/ exists run s, In run runs /\ In s (run_results run)
                                         /\ distance s = Fin x.
Proof.
  intros H. revert l. induction H as [|run rs Hrun _ IH]; intros l Hnd.
  - exists l. repeat split; auto. intros [H | (run & s & [] & _)]. assumption.
  - cbn [fold_left].
    destruct (add_results_real _ l Hrun Hnd) as (l1 & E1 & Hnd1 & Hin1). rewrite E1.
    destruct (IH l1 Hnd1) as (l2 & E2 & Hnd2 & Hin2).
    exists l2. split; [assumption | split; [assumption |]].
    intros x. rewrite Hin2, Hin1. split.
    + intros [[H | (s & Hs & Hx)] | (run' & s & Hr & Hs & Hx)]; [now left | |].
      * right. exists run, s. split; [now left | split; assumption].
      * right. exists run', s. split; [now right | split; assumption].
    + intros [H | (run' & s & [<- | Hr] & Hs & Hx)].
      * left. now left.
      * left. right. exists s. split; assumption.
      * right. exists run', s. split; [assumption | split; assumption].
Qed.

Lemma sort_insert_real x l :
  StronglySorted Rlt l -> ~ In x l ->
  exists l', ComparisonView.sort_insert (Fin x) (map Fin l) = map Fin l'
             /\ StronglySorted Rlt l' /\ forall y, In y l' <-> y = x \/ In y l.
Proof.
  intros Hs. induction Hs as [|y l Hs IH Hall]; intros Hx.
  - exists [x]. split; [reflexivity |]. split; [repeat constructor |].
    intros y. cbn [In]. intuition.
  - cbn [map ComparisonView.sort_insert sub neg add gt lt].
    destruct (Rlt_dec 0 (y + - x)) as [Hlt | Hge].
    + rewrite Rltb_true by assumption. exists (x :: y :: l).
      split; [reflexivity |]. split.
      * constructor; [now constructor |]. constructor; [lra |].
        eapply List.Forall_impl; [| exact Hall]. intros z Hz. cbn beta in Hz. lra.
      * intros z. cbn [In]. intuition.
    + rewrite Rltb_false by assumption.
      assert (Hyx : y < x).
      { destruct (Rtotal_order y x) as [H | [H | H]]; [assumption | | lra].
        exfalso. apply Hx. now left. }
      destruct IH as (l' & E & Hs' & Hin'); [intros H; apply Hx; now right |].
      exists (y :: l'). split; [cbn [map]; now rewrite E |]. split.
      * constructor; [assumption |]. apply List.Forall_forall. intros z Hz.
        apply Hin' in Hz. destruct Hz as [-> | Hz]; [assumption |].
        rewrite List.Forall_forall in Hall. now apply Hall.
      * intros z. cbn [In]. rewrite Hin'. intuition.
Qed.

Lemma sort_ascending_real_from ds acc :
  StronglySorted Rlt acc -> List.NoDup ds -> (forall x, In x ds -> ~ In x acc) ->
  exists out,
    fold_left (fun a x => ComparisonView.sort_insert x a) (map Fin ds) (map Fin acc)
    = map Fin out
    /\ StronglySorted Rlt out /\ forall y, In y out <-> In y acc \/ In y ds.
Proof.
  revert acc. induction ds as [|d ds IH]; intros acc Hs Hnd Hdis.
  - exists acc. repeat split; auto. intros [H | []]. assumption.
  - apply List.NoDup_cons_iff in Hnd. destruct Hnd as [Hd Hnd].
    cbn [map fold_left].
    destruct (sort_insert_real d acc Hs (Hdis d (or_introl eq_refl)))
      as (acc' & E & Hs' & Hin').
    rewrite E.
    destruct (IH acc' Hs' Hnd) as (out & Eo & Hso & Hino).
    + intros x Hx Hacc. apply Hin' in Hacc. destruct Hacc as [-> | Hacc];
        [contradiction | apply (Hdis x); [now right | assumption]].
    + exists out. split; [assumption | split; [assumption |]].
      intros y. rewrite Hino, Hin'. cbn [In]. intuition.
Qed.

(** X25. When the selected runs have real distances (and no run is named
    "distance"), the chart has exactly one point per distinct distance
    occurring in a selected run, in strictly increasing order of distance. *)
Theorem chart_distances_sorted (savedRuns : list SavedRun) (selected : gset string) :
  Forall (fun r => run_id r <> "distance"%string) savedRuns ->
  real_distances savedRuns ->
  exists ds,
    map (fun point : gmap string number => point !! "distance"%string)
        (ComparisonView.chartData savedRuns selected)
    = map (fun d => Some (Fin d)) ds
    /\ StronglySorted Rlt ds
    /\ forall x, In x ds <->
         exists run s, In run savedRuns /\ run_id run ∈ selected
                       /\ In s (run_results run) /\ distance s = Fin x.
Proof.
  intros Hid Hreal. unfold ComparisonView.chartData.
  destruct (decide (size selected = 0%nat)) as [Hz | Hnz].
  - exists []. split; [reflexivity | split; [constructor |]].
    apply size_empty_inv in Hz. intros x. split; [intros [] |].
    intros (run & s & _ & Hsel & _). apply Hz in Hsel. now apply elem_of_empty in Hsel.
  - set (sel := List.filter (fun r => bool_decide (run_id r ∈ selected)) savedRuns).
    assert (Hsel_id : Forall (fun r => run_id r <> "distance"%string) sel).
    { apply List.Forall_forall. intros r Hr. apply filter_In in Hr.
      rewrite List.Forall_forall in Hid. now apply Hid. }
    assert (Hsel_real : real_distances sel).
    { apply List.Forall_forall. intros r Hr. apply filter_In in Hr.
      unfold real_distances in Hreal. rewrite List.Forall_forall in Hreal.
      now apply Hreal. }
    destruct (allDistances_real_from sel [] Hsel_real ltac:(constructor))
      as (ds0 & E0 & Hnd0 & Hin0).
    destruct (sort_ascending_real_from ds0 [] ltac:(constructor) Hnd0 ltac:(intros ? ? []))
      as (ds & E & Hs & Hin).
    exists ds. split; [| split; [assumption |]].
    + unfold ComparisonView.sort_ascending, ComparisonView.allDistances.
      cbn [map] in E0, E. rewrite E0, E. rewrite !map_map. apply map_ext.
      intros d. now apply chart_point_distance.
    + intros x. rewrite Hin, Hin0. cbn [In]. split.
      * intros [[] | [[] | (run & s & Hr & Hs' & Hx)]].
        unfold sel in Hr. apply filter_In in Hr. destruct Hr as [Hr Hb].
        apply bool_decide_eq_true_1 in Hb. exists run, s. tauto.
      * intros (run & s & Hr & Hb & Hs' & Hx). right. right. exists run, s.
        split; [| tauto]. unfold sel. apply filter_In.
        split; [assumption | now apply bool_decide_eq_true_2].
Qed.

Lemma chart_distances_sorted_witness :
  exists ds,
    map (fun point : gmap string number => point !! "distance"%string)
        (ComparisonView.chartData [sample_run] {[ "1"%string ]})
    = map (fun d => Some (Fin d)) ds
    /\ StronglySorted Rlt ds
    /\ forall x, In x ds <->
         exists run s, In run [sample_run] /\ run_id run ∈ ({[ "1"%string ]} : gset string)
                       /\ In s (run_results run) /\ distance s = Fin x.
Proof.
  apply chart_distances_sorted.
  - constructor; [discriminate | constructor].
  - constructor; [| constructor]. cbn [run_results sample_run].
    unfold App.results, App.INITIAL_FILMS. rewrite map_map.
    apply Forall_map, List.Forall_forall. intros i _. eexists. reflexivity.
Defined.

Lemma toggleRun_flips_witness :
  ComparisonView.toggleRun (ComparisonView.toggleRun {[ "1"%string ]} "1") "1"
  = ({[ "1"%string ]} : gset string)
  /\ ("2"%string ∈ ComparisonView.toggleRun {[ "1"%string ]} "1"
      <-> "2"%string ∈ ({[ "1"%string ]} : gset string)).
Proof.
  split.
  - apply (proj2 (proj2 (toggleRun_flips {[ "1"%string ]} "1"))).
  - apply (proj1 (proj2 (toggleRun_flips {[ "1"%string ]} "1"))). discriminate.
Defined.
